(** * A shallow embedding of the chess rules engine (chess/engine.js)

    The engine is a set of functions over an 8x8 board: geometry and
    algebraic addressing, the pseudo-legal move generator, the attack and
    check oracle, the legal-move filter, and the mutator with its notation
    string.  The first part of this file embeds them as pure functions over
    board values.  The second part (module [Heap]) embeds the mutator over an
    explicit store of JavaScript arrays and objects, to reason about what a
    call writes.

    Conventions: coordinates are integers; a board is a list of rows of
    cells, a cell being [null] or a piece; strings are strings of code units
    below 256.  The source indexes the board without looking at its shape,
    so the statements are about positions of 8 rows of 8 cells
    ([wf_position]) and, where the caller supplies a square that is written
    to, about squares on the board ([insideSquare]). *)

From Stdlib Require Import ZArith List String Ascii DecimalString Lia.
From stdpp Require Import base decidable option list strings.

Open Scope Z_scope.

(** ** Data model *)

(** [color:'w'|'b'] *)
Inductive Color := W | B.

(** [type:'K'|'Q'|'R'|'B'|'N'|'P'] *)
Inductive PieceType := King | Queen | Rook | Bishop | Knight | Pawn.

(** The marker of the [promotion?:'Q'] field: its only value is ['Q']. *)
Inductive Promotion := PromoQ.

#[global] Instance Color_eq_dec : EqDecision Color.
Proof. solve_decision. Defined.
#[global] Instance PieceType_eq_dec : EqDecision PieceType.
Proof. solve_decision. Defined.
#[global] Instance Promotion_eq_dec : EqDecision Promotion.
Proof. solve_decision. Defined.

Record Piece := mkPiece { color : Color; type : PieceType }.
Record Square := mkSquare { r : Z; c : Z }.

(** An absent [promotion] or [captured] field is [None]; so is
    [captured: null], which the code tests only for truthiness.  The
    generator stores in [captured] the piece object found on the board; no
    code assigns to a piece object, and the move keeps the piece as a
    value. *)
Record Move := mkMove {
  from : Square;
  to : Square;
  promotion : option Promotion;
  captured : option Piece
}.

(** [board:(Piece|null)[][]]: [None] is [null]. *)
Record Position := mkPosition { board : list (list (option Piece)) }.

#[global] Instance Piece_eq_dec : EqDecision Piece.
Proof. solve_decision. Defined.
#[global] Instance Square_eq_dec : EqDecision Square.
Proof. solve_decision. Defined.
#[global] Instance Move_eq_dec : EqDecision Move.
Proof. solve_decision. Defined.

(** The strings the source uses for colours, piece types and the marker. *)
Definition colorString (k : Color) : string :=
  match k with W => "w" | B => "b" end.

Definition typeString (t : PieceType) : string :=
  match t with
  | King => "K" | Queen => "Q" | Rook => "R"
  | Bishop => "B" | Knight => "N" | Pawn => "P"
  end.

Definition promotionType (q : Promotion) : PieceType :=
  match q with PromoQ => Queen end.

Definition promotionString (q : Promotion) : string :=
  typeString (promotionType q).

(** ** Array access

    [a[i]] on a JavaScript array with an integer index: the element when
    [0 <= i < a.length], [undefined] (here [None]) otherwise. *)
Definition zlookup {A} (a : list A) (i : Z) : option A :=
  if 0 <=? i then a !! Z.to_nat i else None.

(** [position.board[i][j]].  The result [None] stands for [null]; it also
    stands for the [undefined] of a missing column and for the TypeError of
    a missing row, which cannot arise on a well-formed position at a square
    that is [inside]: every theorem below that reads the board at a square
    supplied by the caller assumes both. *)
Definition boardAt (pos : Position) (i j : Z) : option Piece :=
  match zlookup (board pos) i with
  | Some row =>
      match zlookup row j with
      | Some cell => cell
      | None => None
      end
  | None => None
  end.

(** [a[i] = v] for an index within the array.  Outside it the source grows
    the row (or raises, on a missing row); the model leaves the array as it
    is, and the theorems on [applyMove] assume squares that are [inside]. *)
Definition zinsert {A} (a : list A) (i : Z) (v : A) : list A :=
  if 0 <=? i then <[Z.to_nat i := v]> a else a.

(** [b[i][j] = v] *)
Definition boardSet (b : list (list (option Piece))) (i j : Z)
    (v : option Piece) : list (list (option Piece)) :=
  match zlookup b i with
  | Some row => zinsert b i (zinsert row j v)
  | None => b
  end.

(** A position as the type [Position] of the source describes it: 8 rows of
    8 cells.  On such a position every read [position.board[i][j]] with
    [0 <= i, j < 8] finds a cell, as the loops over the board and the reads
    guarded by [inside] expect. *)
Definition wf_position (pos : Position) : Prop :=
  length (board pos) = 8%nat ∧ Forall (λ row, length row = 8%nat) (board pos).

(** ** Geometry and addressing *)

Definition FILES : list string := ["a"; "b"; "c"; "d"; "e"; "f"; "g"; "h"]%string.

(** [Array.prototype.indexOf] on an array of strings, for a key that may be
    [undefined] ([None]): the first index holding the key, or -1. *)
Fixpoint indexOfFrom (a : list string) (key : option string) (i : Z) : Z :=
  match a with
  | [] => -1
  | x :: a' =>
      if bool_decide (key = Some x) then i else indexOfFrom a' key (i + 1)
  end.

Definition indexOf (a : list string) (key : option string) : Z :=
  indexOfFrom a key 0.

(** [s[i]] on a string: the one-character string at [i], or [undefined]. *)
Definition charAt (s : string) (i : nat) : option string :=
  match String.get i s with
  | Some ch => Some (String ch EmptyString)
  | None => None
  end.

(** [Number(x)] for [x] a one-character string or [undefined]: a decimal
    digit is its value, a white-space character is 0, anything else is NaN
    ([None]). *)
Definition isStrWhiteSpace (ch : ascii) : bool :=
  let n := nat_of_ascii ch in
  (n =? 9)%nat || (n =? 10)%nat || (n =? 11)%nat || (n =? 12)%nat ||
  (n =? 13)%nat || (n =? 32)%nat || (n =? 160)%nat.

Definition Number (x : option string) : option Z :=
  match x with
  | Some (String ch EmptyString) =>
      let n := Z.of_nat (nat_of_ascii ch) in
      if (48 <=? n) && (n <=? 57) then Some (n - 48)
      else if isStrWhiteSpace ch then Some 0
      else None
  | _ => None
  end.

(** The string of an integer inside a template literal. *)
Definition numberToString (z : Z) : string :=
  NilZero.string_of_int (Z.to_int z).

(** [`${x}`] for a string that may be [undefined]. *)
Definition templateString (x : option string) : string :=
  match x with
  | Some s => s
  | None => "undefined"
  end.

Definition getPieceColor (piece : option Piece) : option Color :=
  match piece with
  | Some p => Some (color p)
  | None => None
  end.

(** The result is [None] when the rank is NaN, in which case the source
    returns [{r: NaN, c}], which is not a square of integers. *)
Definition parseSquare (algebraic : string) : option Square :=
  let file := charAt algebraic 0 in
  match Number (charAt algebraic 1) with
  | Some rank =>
      let c := indexOf FILES file in
      let r := 8 - rank in
      Some (mkSquare r c)
  | None => None
  end.

Definition squareToAlgebraic (sq : Square) : string :=
  templateString (zlookup FILES (c sq)) +:+ numberToString (8 - r sq).

Definition inside (i j : Z) : bool :=
  (0 <=? i) && (i <? 8) && (0 <=? j) && (j <? 8).

Definition insideSquare (sq : Square) : bool := inside (r sq) (c sq).

(** [row.map((p) => (p ? { ...p } : null))] builds a new object for every
    piece; as a value it has the same fields. *)
Definition clonePosition (pos : Position) : Position :=
  mkPosition
    (map (λ row, map (λ p : option Piece,
            match p with
            | Some p => Some (mkPiece (color p) (type p))
            | None => None
            end) row)
         (board pos)).

(** The squares in the order of the nested loops
    [for r in 0..7, for c in 0..7]. *)
Definition indices : list Z := [0; 1; 2; 3; 4; 5; 6; 7].

Definition allSquares : list Square :=
  flat_map (λ i, map (λ j, mkSquare i j) indices) indices.

Definition isKingOf (pos : Position) (k : Color) (sq : Square) : bool :=
  match boardAt pos (r sq) (c sq) with
  | Some p => bool_decide (color p = k) && bool_decide (type p = King)
  | None => false
  end.

(** The first square in loop order that holds the king, or [null]. *)
Definition findKing (pos : Position) (k : Color) : option Square :=
  find (isKingOf pos k) allSquares.

Definition opposite (k : Color) : Color :=
  if bool_decide (k = W) then B else W.

Definition isEmpty (pos : Position) (i j : Z) : bool :=
  match boardAt pos i j with
  | None => true
  | Some _ => false
  end.

Definition isEnemy (pos : Position) (i j : Z) (k : Color) : bool :=
  match boardAt pos i j with
  | Some p => negb (bool_decide (color p = k))
  | None => false
  end.

(** ** Pseudo-legal move generator *)

(** The move objects the generator builds. *)
Definition quietMove (from to : Square) : Move := mkMove from to None None.

Definition captureMove (from to : Square) (target : Piece) : Move :=
  mkMove from to None (Some target).

(** [pushIfValid] pushes onto the array [moves]; the model returns the array
    after the call. *)
Definition pushIfValid (moves : list Move) (pos : Position) (from : Square)
    (i j : Z) (k : Color) : list Move :=
  if negb (inside i j) then moves
  else
    match boardAt pos i j with
    | None => moves ++ [quietMove from (mkSquare i j)]
    | Some target =>
        if negb (bool_decide (color target = k))
        then moves ++ [captureMove from (mkSquare i j) target]
        else moves
    end.

(** The [while (inside(r, c))] loop of [genSliding] for one direction,
    started at [(i, j)]: the moves it pushes.  Every round consumes one unit
    of [fuel]; [slide_fuel_enough] shows that 8 units reach the end of the
    loop for every direction other than (0, 0). *)
Fixpoint slide (fuel : nat) (pos : Position) (from : Square) (k : Color)
    (dr dc i j : Z) : list Move :=
  match fuel with
  | O => []
  | S fuel' =>
      if inside i j then
        match boardAt pos i j with
        | None =>
            quietMove from (mkSquare i j)
              :: slide fuel' pos from k dr dc (i + dr) (j + dc)
        | Some target =>
            if negb (bool_decide (color target = k))
            then [captureMove from (mkSquare i j) target]
            else []
        end
      else []
  end.

Definition slideFuel : nat := 8.

Definition genSliding (pos : Position) (from : Square) (k : Color)
    (deltas : list (Z * Z)) : list Move :=
  flat_map (λ d, slide slideFuel pos from k d.1 d.2
                   (r from + d.1) (c from + d.2)) deltas.

Definition knightDeltas : list (Z * Z) :=
  [(-2, -1); (-2, 1); (-1, -2); (-1, 2); (1, -2); (1, 2); (2, -1); (2, 1)].

Definition bishopDeltas : list (Z * Z) :=
  [(-1, -1); (-1, 1); (1, -1); (1, 1)].

Definition rookDeltas : list (Z * Z) :=
  [(-1, 0); (1, 0); (0, -1); (0, 1)].

Definition queenDeltas : list (Z * Z) :=
  [(-1, -1); (-1, 1); (1, -1); (1, 1); (-1, 0); (1, 0); (0, -1); (0, 1)].

Definition kingDeltas : list (Z * Z) :=
  [(-1, -1); (-1, 0); (-1, 1); (0, -1); (0, 1); (1, -1); (1, 0); (1, 1)].

(** The [for (const [dr, dc] of deltas) pushIfValid(...)] loop. *)
Definition pushDeltas (pos : Position) (from : Square) (k : Color)
    (deltas : list (Z * Z)) : list Move :=
  fold_left (λ moves d, pushIfValid moves pos from (r from + d.1) (c from + d.2) k)
            deltas [].

(** The pawn case of the switch. *)
Definition pawnMoves (pos : Position) (from : Square) (k : Color) : list Move :=
  let dir := if bool_decide (k = W) then -1 else 1 in
  let startRow := if bool_decide (k = W) then 6 else 1 in
  let r1 := r from + dir in
  let forward :=
    if inside r1 (c from) && isEmpty pos r1 (c from) then
      (if (r1 =? 0) || (r1 =? 7)
       then [mkMove from (mkSquare r1 (c from)) (Some PromoQ) None]
       else [quietMove from (mkSquare r1 (c from))])
      ++
      (let r2 := r from + 2 * dir in
       if (r from =? startRow) && inside r2 (c from) && isEmpty pos r2 (c from)
       then [quietMove from (mkSquare r2 (c from))]
       else [])
    else [] in
  let captures :=
    flat_map (λ dc,
      let rc := c from + dc in
      if negb (inside r1 rc) then []
      else if isEnemy pos r1 rc k then
        let captured := boardAt pos r1 rc in
        if (r1 =? 0) || (r1 =? 7)
        then [mkMove from (mkSquare r1 rc) (Some PromoQ) captured]
        else [mkMove from (mkSquare r1 rc) None captured]
      else []) [-1; 1] in
  forward ++ captures.

Definition pseudoLegalMovesForSquare (pos : Position) (from : Square)
    : list Move :=
  match boardAt pos (r from) (c from) with
  | None => []
  | Some piece =>
      let k := color piece in
      match type piece with
      | Pawn => pawnMoves pos from k
      | Knight => pushDeltas pos from k knightDeltas
      | Bishop => genSliding pos from k bishopDeltas
      | Rook => genSliding pos from k rookDeltas
      | Queen => genSliding pos from k queenDeltas
      | King => pushDeltas pos from k kingDeltas
      end
  end.

(** ** Attack and check oracle *)

Definition attacksFrom (pos : Position) (square : Square) (byColor : Color)
    (sq : Square) : bool :=
  match boardAt pos (r sq) (c sq) with
  | None => false
  | Some p =>
      if negb (bool_decide (color p = byColor)) then false
      else if bool_decide (type p = Pawn) then
        let dir := if bool_decide (byColor = W) then -1 else 1 in
        existsb (λ dc, (r sq + dir =? r square) && (c sq + dc =? c square))
                [-1; 1]
      else
        existsb (λ m, (r (to m) =? r square) && (c (to m) =? c square))
                (pseudoLegalMovesForSquare pos sq)
  end.

(** The nested loops return [true] at the first square whose piece attacks
    [square], and [false] when none does. *)
Definition isSquareAttacked (pos : Position) (square : Square)
    (byColor : Color) : bool :=
  existsb (attacksFrom pos square byColor) allSquares.

Definition inCheck (pos : Position) (k : Color) : bool :=
  match findKing pos k with
  | None => false
  | Some kingSq => isSquareAttacked pos kingSq (opposite k)
  end.

(** ** Legal-move filter and mutator *)

Definition applyMove (pos : Position) (move : Move) : Position :=
  let next := clonePosition pos in
  let piece := boardAt next (r (from move)) (c (from move)) in
  let b1 := boardSet (board next) (r (from move)) (c (from move)) None in
  let placed :=
    match piece with
    | Some p =>
        if bool_decide (type p = Pawn) then
          match promotion move with
          | Some q => Some (mkPiece (color p) (promotionType q))
          | None => piece
          end
        else piece
    | None => piece
    end in
  mkPosition (boardSet b1 (r (to move)) (c (to move)) placed).

Definition wouldLeaveKingInCheck (pos : Position) (move : Move)
    (moverColor : Color) : bool :=
  let next := applyMove pos move in
  inCheck next moverColor.

Definition pieceLetter (pieceType : PieceType) : string :=
  if bool_decide (pieceType = Pawn) then "" else typeString pieceType.

Definition moveToSANLike (pos : Position) (move : Move) : string :=
  match boardAt pos (r (from move)) (c (from move)) with
  | None => squareToAlgebraic (from move) +:+ "-" +:+ squareToAlgebraic (to move)
  | Some piece =>
      let captureMark :=
        match captured move with
        | Some _ => "x"
        | None => "-"
        end in
      let promo :=
        match promotion move with
        | Some q => "=" +:+ promotionString q
        | None => ""
        end in
      pieceLetter (type piece) +:+ squareToAlgebraic (from move) +:+ captureMark
        +:+ squareToAlgebraic (to move) +:+ promo
  end.

(** [{ position: nextPosition, san }] *)
Definition makeMove (pos : Position) (move : Move) : Position * string :=
  let nextPosition := applyMove pos move in
  (nextPosition, moveToSANLike pos move).

Definition legalFrom (pos : Position) (turn : Color) (sq : Square) : list Move :=
  match boardAt pos (r sq) (c sq) with
  | None => []
  | Some p =>
      if negb (bool_decide (color p = turn)) then []
      else List.filter (λ mv, negb (wouldLeaveKingInCheck pos mv turn))
                       (pseudoLegalMovesForSquare pos sq)
  end.

Definition generateLegalMoves (pos : Position) (turn : Color) : list Move :=
  flat_map (legalFrom pos turn) allSquares.

(** ** The initial position *)

Definition backRank (k : Color) : list (option Piece) :=
  map (λ t, Some (mkPiece k t))
      [Rook; Knight; Bishop; Queen; King; Bishop; Knight; Rook].

Definition emptyBoard : list (list (option Piece)) :=
  replicate 8 (replicate 8 None).

Definition createInitialPosition : Position :=
  let board := emptyBoard in
  let board := zinsert board 0 (backRank B) in
  let board := zinsert board 1 (replicate 8 (Some (mkPiece B Pawn))) in
  let board := zinsert board 6 (replicate 8 (Some (mkPiece W Pawn))) in
  let board := zinsert board 7 (backRank W) in
  mkPosition board.

(** ** Positions of the scenarios *)

(** Black king on a8, white king on a6, white pawn on b6. *)
Definition stalematePosition : Position :=
  let board := emptyBoard in
  let board := boardSet board 0 0 (Some (mkPiece B King)) in
  let board := boardSet board 2 0 (Some (mkPiece W King)) in
  let board := boardSet board 2 1 (Some (mkPiece W Pawn)) in
  mkPosition board.

(** The position after 1.f3 e5 2.g4 Qh4, played with [makeMove]. *)
Definition foolsMatePosition : Position :=
  let p0 := createInitialPosition in
  let p1 := (makeMove p0 (quietMove (mkSquare 6 5) (mkSquare 5 5))).1 in
  let p2 := (makeMove p1 (quietMove (mkSquare 1 4) (mkSquare 3 4))).1 in
  let p3 := (makeMove p2 (quietMove (mkSquare 6 6) (mkSquare 4 6))).1 in
  (makeMove p3 (quietMove (mkSquare 0 3) (mkSquare 4 7))).1.

(** White king on e1, black king on a8, white pawn on h7 and a black rook
    on g8 that the pawn can capture. *)
Definition promotionPosition : Position :=
  let board := emptyBoard in
  let board := boardSet board 0 0 (Some (mkPiece B King)) in
  let board := boardSet board 0 6 (Some (mkPiece B Rook)) in
  let board := boardSet board 1 7 (Some (mkPiece W Pawn)) in
  let board := boardSet board 7 4 (Some (mkPiece W King)) in
  mkPosition board.

(** The stalemate of king and rook pawn against king: black king on a8,
    white king on a6, white pawn on a7. *)
Definition cornerStalematePosition : Position :=
  let board := emptyBoard in
  let board := boardSet board 0 0 (Some (mkPiece B King)) in
  let board := boardSet board 1 0 (Some (mkPiece W Pawn)) in
  let board := boardSet board 2 0 (Some (mkPiece W King)) in
  mkPosition board.

(** ** Notions used in the statements *)

(** A string ends with a suffix. *)
Definition endsWith (s suffix : string) : Prop :=
  ∃ prefix, s = prefix +:+ suffix.

(** Classification of the moves of a list, by the piece on the origin
    square. *)
Definition movedType (pos : Position) (m : Move) : option PieceType :=
  type <$> boardAt pos (r (from m)) (c (from m)).

Definition isPawnPush (pos : Position) (steps : Z) (m : Move) : bool :=
  bool_decide (movedType pos m = Some Pawn)
  && (c (to m) =? c (from m))
  && (Z.abs (r (to m) - r (from m)) =? steps).

Definition isKnightMove (pos : Position) (m : Move) : bool :=
  bool_decide (movedType pos m = Some Knight).

(** No cell of the board holds the king of colour [k]. *)
Definition noKing (pos : Position) (k : Color) : Prop :=
  Forall (Forall (λ cell, cell ≠ Some (mkPiece k King))) (board pos).

(** The notation string as the specification words it: the piece letter
    (none for a pawn), the origin, 'x' for a capture and '-' otherwise, the
    destination, and '=Q' for a promotion. *)
Definition notationSpec (piece : Piece) (m : Move) : string :=
  (match type piece with
   | Pawn => ""
   | King => "K" | Queen => "Q" | Rook => "R" | Bishop => "B" | Knight => "N"
   end)
  +:+ squareToAlgebraic (from m)
  +:+ (match captured m with Some _ => "x" | None => "-" end)
  +:+ squareToAlgebraic (to m)
  +:+ (match promotion m with Some _ => "=Q" | None => "" end).

(** The piece on a square. *)
Definition pieceOn (pos : Position) (sq : Square) : option Piece :=
  boardAt pos (r sq) (c sq).

(** The move object the generator builds for a destination it accepts:
    without [captured] on an empty square, with the piece found there
    otherwise. *)
Definition stepMove (pos : Position) (from : Square) (i j : Z) : Move :=
  mkMove from (mkSquare i j) None (boardAt pos i j).

(** A destination the generator accepts for colour [k]: on the board and
    not occupied by a piece of colour [k]. *)
Definition landable (pos : Position) (k : Color) (i j : Z) : Prop :=
  inside i j = true ∧ ∀ q, boardAt pos i j = Some q → color q ≠ k.

(** The direction set of a sliding piece. *)
Definition slidingDeltas (t : PieceType) : list (Z * Z) :=
  match t with
  | Bishop => bishopDeltas
  | Rook => rookDeltas
  | Queen => queenDeltas
  | _ => []
  end.

(** The [n]-th square of the ray that leaves [from] in direction [d]. *)
Definition rayAt (from : Square) (d : Z * Z) (n : Z) : Square :=
  mkSquare (r from + n * d.1) (c from + n * d.2).

(** The squares 1 .. n-1 of the ray are on the board and empty. *)
Definition emptyBefore (pos : Position) (from : Square) (d : Z * Z) (n : Z)
    : Prop :=
  ∀ t, 1 ≤ t < n →
    insideSquare (rayAt from d t) = true ∧ pieceOn pos (rayAt from d t) = None.

(** The piece [applyMove] puts on the destination square. *)
Definition placedPiece (pos : Position) (m : Move) : option Piece :=
  match boardAt pos (r (from m)) (c (from m)) with
  | Some p =>
      if bool_decide (type p = Pawn) then
        match promotion m with
        | Some q => Some (mkPiece (color p) (promotionType q))
        | None => Some p
        end
      else Some p
  | None => None
  end.

(** ** The mutator over a store of objects

    [clonePosition] builds new arrays and [applyMove] assigns to their
    elements.  To reason about which objects a call writes, this module runs
    the same code over an explicit store: a position is a reference to an
    object [{board}], whose board is an array of references to rows, whose
    elements are [null] or references to piece objects.  New objects are
    allocated at the end of the store.

    A computation yields [None] when it leaves the modelled fragment: an
    index outside an array (where the source raises a TypeError on a missing
    row, and grows the row on a missing column) or a reference to an object
    of another shape.

    Functions that only read a position ([pseudoLegalMovesForSquare],
    [inCheck], [moveToSANLike]) are run on the board value read from the
    store at the time of the call; the move objects they build are never
    assigned to and are kept as values. *)
Module Heap.

Abbreviation loc := nat.

Inductive obj :=
| OPiece (p : Piece)
| ORow (cells : list (option loc))
| OBoard (rows : list loc)
| OPosition (boardRef : loc).

Abbreviation store := (list obj).

Definition M (A : Type) : Type := store → option (A * store).

#[global] Instance M_ret : MRet M := λ A a σ, Some (a, σ).

#[global] Instance M_bind : MBind M := λ A B f m σ,
  match m σ with
  | Some (a, σ') => f a σ'
  | None => None
  end.

Definition fail {A} : M A := λ _, None.

(** A new object. *)
Definition alloc (o : obj) : M loc := λ σ, Some (length σ, σ ++ [o]).

Definition load (l : loc) : M obj := λ σ,
  match σ !! l with
  | Some o => Some (o, σ)
  | None => None
  end.

(** An assignment to the contents of an existing object. *)
Definition assign (l : loc) (o : obj) : M unit := λ σ,
  if decide (l < length σ)%nat then Some ((), <[l := o]> σ) else None.

Definition getPiece (l : loc) : M Piece :=
  o ← load l; match o with OPiece p => mret p | _ => fail end.

Definition getCells (l : loc) : M (list (option loc)) :=
  o ← load l; match o with ORow cells => mret cells | _ => fail end.

Definition getRows (l : loc) : M (list loc) :=
  o ← load l; match o with OBoard rows => mret rows | _ => fail end.

(** [position.board] *)
Definition getBoard (position : loc) : M loc :=
  o ← load position; match o with OPosition b => mret b | _ => fail end.

(** The board value a position reference stands for in a store. *)
Definition snapCell (σ : store) (cell : option loc) : option (option Piece) :=
  match cell with
  | None => Some None
  | Some l =>
      match σ !! l with
      | Some (OPiece p) => Some (Some p)
      | _ => None
      end
  end.

Definition snapRow (σ : store) (row : loc) : option (list (option Piece)) :=
  match σ !! row with
  | Some (ORow cells) => mapM (snapCell σ) cells
  | _ => None
  end.

Definition snapshot (σ : store) (position : loc) : option Position :=
  match σ !! position with
  | Some (OPosition b) =>
      match σ !! b with
      | Some (OBoard rows) => mkPosition <$> mapM (snapRow σ) rows
      | _ => None
      end
  | _ => None
  end.

Definition readPosition (position : loc) : M Position := λ σ,
  match snapshot σ position with
  | Some pos => Some (pos, σ)
  | None => None
  end.

(** [(p) => (p ? { ...p } : null)] *)
Definition cloneCell (p : option loc) : M (option loc) :=
  match p with
  | Some l =>
      pc ← getPiece l;
      l' ← alloc (OPiece (mkPiece (color pc) (type pc)));
      mret (Some l')
  | None => mret None
  end.

(** [(row) => row.map(...)] *)
Definition cloneRow (row : loc) : M loc :=
  cells ← getCells row;
  cells' ← mapM cloneCell cells;
  alloc (ORow cells').

Definition clonePosition (position : loc) : M loc :=
  b ← getBoard position;
  rows ← getRows b;
  rows' ← mapM cloneRow rows;
  b' ← alloc (OBoard rows');
  alloc (OPosition b').

(** [position.board[i][j]] *)
Definition readCell (position : loc) (i j : Z) : M (option loc) :=
  b ← getBoard position;
  rows ← getRows b;
  match zlookup rows i with
  | None => fail
  | Some row =>
      cells ← getCells row;
      match zlookup cells j with
      | None => fail
      | Some cell => mret cell
      end
  end.

(** [position.board[i][j] = v] *)
Definition writeCell (position : loc) (i j : Z) (v : option loc) : M unit :=
  b ← getBoard position;
  rows ← getRows b;
  match zlookup rows i with
  | None => fail
  | Some row =>
      cells ← getCells row;
      match zlookup cells j with
      | None => fail
      | Some _ => assign row (ORow (zinsert cells j v))
      end
  end.

Definition applyMove (position : loc) (move : Move) : M loc :=
  next ← clonePosition position;
  piece ← readCell next (r (from move)) (c (from move));
  _ ← writeCell next (r (from move)) (c (from move)) None;
  placed ←
    match piece with
    | Some l =>
        pc ← getPiece l;
        if bool_decide (type pc = Pawn) then
          match promotion move with
          | Some q =>
              l' ← alloc (OPiece (mkPiece (color pc) (promotionType q)));
              mret (Some l')
          | None => mret piece
          end
        else mret piece
    | None => mret piece
    end;
  _ ← writeCell next (r (to move)) (c (to move)) placed;
  mret next.

Definition wouldLeaveKingInCheck (position : loc) (move : Move)
    (moverColor : Color) : M bool :=
  next ← applyMove position move;
  nextPos ← readPosition next;
  mret (inCheck nextPos moverColor).

Definition makeMove (position : loc) (move : Move) : M (loc * string) :=
  nextPosition ← applyMove position move;
  pos ← readPosition position;
  mret (nextPosition, moveToSANLike pos move).

(** The [for (const mv of pseudo)] loop. *)
Fixpoint keepSafe (position : loc) (turn : Color) (pseudo : list Move)
    : M (list Move) :=
  match pseudo with
  | [] => mret []
  | mv :: pseudo' =>
      b ← wouldLeaveKingInCheck position mv turn;
      rest ← keepSafe position turn pseudo';
      mret (if negb b then mv :: rest else rest)
  end.

Definition legalFrom (position : loc) (turn : Color) (sq : Square)
    : M (list Move) :=
  pos ← readPosition position;
  match boardAt pos (r sq) (c sq) with
  | None => mret []
  | Some p =>
      if negb (bool_decide (color p = turn)) then mret []
      else keepSafe position turn (pseudoLegalMovesForSquare pos sq)
  end.

Definition generateLegalMoves (position : loc) (turn : Color) : M (list Move) :=
  found ← mapM (legalFrom position turn) allSquares;
  mret (concat found).

(** The objects of a board value, allocated row by row, and the reference
    to the position object. *)
Definition storeRow (cells : list (option Piece)) : M loc :=
  refs ← mapM (λ cell : option Piece,
                 match cell with
                 | Some p => l ← alloc (OPiece p); mret (Some l)
                 | None => mret None
                 end) cells;
  alloc (ORow refs).

Definition storePosition (pos : Position) : M loc :=
  rows ← mapM storeRow (board pos);
  b ← alloc (OBoard rows);
  alloc (OPosition b).

(** The reference and the store of [storePosition] on the empty store, for
    the initial position. *)
Definition initialStore : loc * store :=
  default (0%nat, []) (storePosition createInitialPosition []).

(** A position of the store whose rows lie at address [n] or above and are
    pairwise distinct, with the board value [brd]. *)
Definition freshPosition (n : nat) (σ : store) (position : loc)
    (brd : list (list (option Piece))) : Prop :=
  ∃ b rows,
    σ !! position = Some (OPosition b)
    ∧ σ !! b = Some (OBoard rows)
    ∧ mapM (snapRow σ) rows = Some brd
    ∧ Forall (λ l, n ≤ l)%nat rows
    ∧ NoDup rows.

(** A cell that is [null] or refers to an object at address [n] or above. *)
Definition freshCell (n : nat) (cell : option loc) : Prop :=
  ∀ l, cell = Some l → (n ≤ l)%nat.

(** A row object at address [n] or above all of whose pieces are at address
    [n] or above. *)
Definition freshRow (n : nat) (σ : store) (row : loc) : Prop :=
  (n ≤ row)%nat
  ∧ ∃ cells, σ !! row = Some (ORow cells) ∧ Forall (freshCell n) cells.

End Heap.

(** ** Notions used in the statements on the generator and the oracle *)

(** The forward direction and the starting row of the pawns of a colour. *)
Definition pawnDir (k : Color) : Z := if bool_decide (k = W) then -1 else 1.

Definition pawnStartRow (k : Color) : Z := if bool_decide (k = W) then 6 else 1.

(** The promotion marker of a pawn move that ends on [row]. *)
Definition promotionAt (row : Z) : option Promotion :=
  if (row =? 0) || (row =? 7) then Some PromoQ else None.

(** The squares a piece [p] standing on [a] attacks, piece by piece: a pawn
    the two squares diagonally ahead, whatever they hold; a knight or a king
    the squares at its offsets that are on the board and hold no piece of
    its colour; a bishop, rook or queen the squares of its rays up to the
    first occupied one, that one included when it holds a piece of the other
    colour. *)
Definition attackGeometry (pos : Position) (a : Square) (p : Piece)
    (i j : Z) : Prop :=
  match type p with
  | Pawn => i = r a + pawnDir (color p) ∧ (j = c a - 1 ∨ j = c a + 1)
  | Knight =>
      ∃ d, In d knightDeltas ∧ i = r a + d.1 ∧ j = c a + d.2
           ∧ landable pos (color p) i j
  | King =>
      ∃ d, In d kingDeltas ∧ i = r a + d.1 ∧ j = c a + d.2
           ∧ landable pos (color p) i j
  | _ =>
      ∃ d n, In d (slidingDeltas (type p)) ∧ 1 ≤ n
             ∧ emptyBefore pos a d n
             ∧ i = r a + n * d.1 ∧ j = c a + n * d.2
             ∧ landable pos (color p) i j
  end.

(** The shape of the jump of a knight or a king, as row and column
    differences. *)
Definition jumpShape (t : PieceType) (dr dc : Z) : Prop :=
  match t with
  | Knight => (Z.abs dr = 1 ∧ Z.abs dc = 2) ∨ (Z.abs dr = 2 ∧ Z.abs dc = 1)
  | King => Z.max (Z.abs dr) (Z.abs dc) = 1
  | _ => False
  end.

(** ** The component that drives the engine (App.js)

    The component keeps the position, the side to move, the selected square
    with its legal moves, the move history and the status in its state;
    [allLegalMoves] is recomputed from the position and the side to move of
    the render.  A value of [State] holds the state of one render.  An
    event handler runs on the values of its render and queues state
    updates; the model returns the state after these updates.  The effect
    that evaluates the status runs after a render whose position or side to
    move changed, before the next event is handled: [step] applies it to
    the state the handler leaves (on a state that satisfies
    [stateInvariant] it changes nothing, see [statusEffect_fixed]). *)
Module App.

(** [{ inCheck, checkmated, stalemated }]; the first field is renamed, the
    name being that of the oracle. *)
Record Status := mkStatus {
  isInCheck : bool;
  checkmated : bool;
  stalemated : bool
}.

Record State := mkState {
  position : Position;
  turn : Color;
  selected : option Square;
  legalMovesFromSelected : list Move;
  moveHistory : list string;
  status : Status
}.

(** The initial values of the [useState] calls. *)
Definition initialState : State :=
  mkState createInitialPosition W None [] [] (mkStatus false false false).

(** [useMemo(() => generateLegalMoves(position, turn), [position, turn])] *)
Definition allLegalMoves (s : State) : list Move :=
  generateLegalMoves (position s) (turn s).

(** The body of the effect. *)
Definition statusEffect (s : State) : State :=
  let isInCheck := inCheck (position s) (turn s) in
  let noMoves := bool_decide (length (allLegalMoves s) = 0%nat) in
  let checkmated := noMoves && isInCheck in
  let stalemated := noMoves && negb isInCheck in
  let st := mkStatus isInCheck checkmated stalemated in
  if checkmated || stalemated
  then mkState (position s) (turn s) None [] (moveHistory s) st
  else mkState (position s) (turn s) (selected s) (legalMovesFromSelected s)
               (moveHistory s) st.

Definition isSelectablePiece (s : State) (i j : Z) : bool :=
  match boardAt (position s) i j with
  | Some piece => bool_decide (color piece = turn s)
  | None => false
  end.

Definition isLegalDestination (s : State) (i j : Z) : bool :=
  existsb (λ m, (r (to m) =? i) && (c (to m) =? j)) (legalMovesFromSelected s).

(** The first move with the destination, or [undefined]. *)
Definition getMoveForDestination (s : State) (i j : Z) : option Move :=
  find (λ m, (r (to m) =? i) && (c (to m) =? j)) (legalMovesFromSelected s).

(** The selection of the square [(i, j)]: [setSelected(from)] and
    [setLegalMovesFromSelected(movesFrom)], with the moves of
    [allLegalMoves] that start on the square. *)
Definition select (s : State) (i j : Z) : State :=
  let origin := mkSquare i j in
  let movesFrom :=
    List.filter (λ m, (r (from m) =? i) && (c (from m) =? j))
                (allLegalMoves s) in
  mkState (position s) (turn s) (Some origin) movesFrom (moveHistory s)
          (status s).

(** The branch in which [getMoveForDestination] finds no move is not
    reached: it is taken only after [isLegalDestination] found one. *)
Definition handleSquareClick (i j : Z) (s : State) : State :=
  if checkmated (status s) || stalemated (status s) then s
  else
    match selected s with
    | Some _ =>
        if isLegalDestination s i j then
          match getMoveForDestination s i j with
          | Some move =>
              let '(nextPosition, san) := makeMove (position s) move in
              mkState nextPosition
                      (if bool_decide (turn s = W) then B else W)
                      None [] (moveHistory s ++ [san]) (status s)
          | None => s
          end
        else if isSelectablePiece s i j then select s i j
        else mkState (position s) (turn s) None [] (moveHistory s) (status s)
    | None =>
        if isSelectablePiece s i j then select s i j else s
    end.

Definition restartGame (s : State) : State :=
  mkState createInitialPosition W None [] [] (status s).

(** The events of the component: a click on the button of a square, and
    the restart button. *)
Inductive Event :=
| Click (i j : Z)
| Restart.

Definition handle (ev : Event) (s : State) : State :=
  match ev with
  | Click i j => handleSquareClick i j s
  | Restart => restartGame s
  end.

Definition step (ev : Event) (s : State) : State := statusEffect (handle ev s).

(** The state after the mount effect and a sequence of events. *)
Definition run (events : list Event) : State :=
  fold_left (λ s ev, step ev s) events (statusEffect initialState).

(** The buttons are rendered from the board: a click carries the indices of
    a cell. *)
Definition onBoard (ev : Event) : Prop :=
  match ev with
  | Click i j => inside i j = true
  | Restart => True
  end.

End App.

(** A position and a side to move reached from the initial position by
    legal moves of alternating sides. *)
Inductive Played : Position → Color → Prop :=
| Played_start : Played createInitialPosition W
| Played_move pos t m :
    Played pos t → In m (generateLegalMoves pos t) →
    Played (applyMove pos m) (opposite t).

(** What holds of the state between two events: the position was reached
    by legal play, the side to move follows the parity of the history, the
    status is the one the effect computes, the moves kept for the selected
    square are legal moves from that square, and nothing is selected once
    the side to move has no legal move. *)
Definition stateInvariant (s : App.State) : Prop :=
  Played (App.position s) (App.turn s)
  ∧ App.turn s = (if Nat.even (length (App.moveHistory s)) then W else B)
  ∧ App.status s = App.status (App.statusEffect s)
  ∧ (∀ m, In m (App.legalMovesFromSelected s) →
       In m (App.allLegalMoves s) ∧ App.selected s = Some (from m))
  ∧ (App.allLegalMoves s = [] →
       App.selected s = None ∧ App.legalMovesFromSelected s = []).

(** * Properties *)

(** ** Geometry *)

Lemma inside_spec i j :
  inside i j = true ↔ 0 ≤ i < 8 ∧ 0 ≤ j < 8.
Proof. unfold inside. rewrite !andb_true_iff. lia. Qed.

Lemma inside_false i j :
  inside i j = false ↔ ¬ (0 ≤ i < 8 ∧ 0 ≤ j < 8).
Proof. rewrite <- inside_spec. destruct (inside i j); naive_solver. Qed.

Lemma index_cases i :
  0 ≤ i < 8 →
  i = 0 ∨ i = 1 ∨ i = 2 ∨ i = 3 ∨ i = 4 ∨ i = 5 ∨ i = 6 ∨ i = 7.
Proof. lia. Qed.

Ltac each_index H :=
  apply index_cases in H;
  destruct H as [->|[->|[->|[->|[->|[->|[->| ->]]]]]]].

Lemma in_allSquares sq :
  In sq allSquares ↔ insideSquare sq = true.
Proof.
  destruct sq as [i j]. unfold insideSquare; simpl. rewrite inside_spec.
  split.
  - intros H. vm_compute in H.
    repeat (destruct H as [H|H]; [inversion H; lia|]). destruct H.
  - intros [Hi Hj]. each_index Hi; each_index Hj; vm_compute; tauto.
Qed.

(** C6: for every square with both coordinates in [0,7], parsing the
    algebraic form of the square gives the square back. *)
Theorem parseSquare_squareToAlgebraic (sq : Square) :
  insideSquare sq = true →
  parseSquare (squareToAlgebraic sq) = Some sq.
Proof.
  destruct sq as [i j]. unfold insideSquare; simpl.
  rewrite inside_spec. intros [Hi Hj].
  each_index Hi; each_index Hj; reflexivity.
Qed.

Lemma parseSquare_squareToAlgebraic_e4 :
  insideSquare (mkSquare 4 4) = true ∧
  squareToAlgebraic (mkSquare 4 4) = "e4" ∧
  parseSquare (squareToAlgebraic (mkSquare 4 4)) = Some (mkSquare 4 4).
Proof.
  split; [reflexivity|]. split; [reflexivity|].
  apply (parseSquare_squareToAlgebraic (mkSquare 4 4)). reflexivity.
Defined.

(** ** Scenarios *)

(** C2 as the spec states it, refuted: with the black king on a8, the white
    king on a6 and the white pawn on b6, black has a legal move. *)
Lemma stalemate_b6_has_move :
  ¬ (generateLegalMoves stalematePosition B = []
     ∧ inCheck stalematePosition B = false).
Proof. vm_compute. intros [H _]. discriminate H. Qed.

(** C2, amended: in that position black is not in check and has exactly one
    legal move, the king step from a8 to b8; with the pawn on a7 instead of
    b6 the list of legal moves is empty and black is not in check. *)
Theorem stalemate_scenario :
  generateLegalMoves stalematePosition B
    = [quietMove (mkSquare 0 0) (mkSquare 0 1)]
  ∧ inCheck stalematePosition B = false
  ∧ generateLegalMoves cornerStalematePosition B = []
  ∧ inCheck cornerStalematePosition B = false.
Proof. vm_compute. auto. Qed.

(** C3: in the initial position white has exactly 20 legal moves: 8 single
    pawn pushes, 8 double pawn pushes and 4 knight moves, none of which
    carries a captured piece. *)
Theorem initial_position_moves :
  let pos := createInitialPosition in
  let moves := generateLegalMoves pos W in
  length moves = 20%nat
  ∧ length (List.filter (isPawnPush pos 1) moves) = 8%nat
  ∧ length (List.filter (isPawnPush pos 2) moves) = 8%nat
  ∧ length (List.filter (isKnightMove pos) moves) = 4%nat
  ∧ (∀ m, In m moves → captured m = None).
Proof.
  cbv zeta. repeat split; try (vm_compute; reflexivity).
  intros m Hm.
  assert (Hall : forallb (λ m, bool_decide (captured m = None))
                   (generateLegalMoves createInitialPosition W) = true)
    by (vm_compute; reflexivity).
  rewrite forallb_forall in Hall.
  apply Hall in Hm. by apply bool_decide_eq_true in Hm.
Qed.

(** C4: in the position after 1.f3 e5 2.g4 Qh4 white has no legal move and
    is in check; the white king stands on e1 and the black queen on h4. *)
Theorem fools_mate_scenario :
  boardAt foolsMatePosition 7 4 = Some (mkPiece W King)
  ∧ boardAt foolsMatePosition 4 7 = Some (mkPiece B Queen)
  ∧ generateLegalMoves foolsMatePosition W = []
  ∧ inCheck foolsMatePosition W = true.
Proof. vm_compute. auto. Qed.

(** ** Reading the board *)

Lemma zlookup_Some {A} (a : list A) i x :
  zlookup a i = Some x ↔ 0 ≤ i ∧ a !! Z.to_nat i = Some x.
Proof.
  unfold zlookup. destruct (Z.leb_spec 0 i).
  - split; [by split|by intros [_ ?]].
  - split; [done|lia].
Qed.

Lemma zlookup_In {A} (a : list A) i x : zlookup a i = Some x → In x a.
Proof.
  rewrite zlookup_Some. intros [_ H].
  apply list_elem_of_In. by eapply list_elem_of_lookup_2.
Qed.

Lemma boardAt_Some pos i j p :
  boardAt pos i j = Some p →
  ∃ row, zlookup (board pos) i = Some row ∧ zlookup row j = Some (Some p).
Proof.
  unfold boardAt. destruct (zlookup (board pos) i) as [row|]; [|done].
  destruct (zlookup row j) as [cell|] eqn:E; [|done].
  intros ->. eauto.
Qed.

Lemma find_all_false {A} (f : A → bool) (l : list A) :
  (∀ x, In x l → f x = false) → find f l = None.
Proof.
  induction l as [|x l IH]; simpl; [done|]. intros H.
  rewrite (H x) by auto. apply IH. auto.
Qed.

Lemma findKing_noKing pos k : noKing pos k → findKing pos k = None.
Proof.
  intros Hno. apply find_all_false. intros sq _.
  unfold isKingOf. destruct (boardAt pos (r sq) (c sq)) as [p|] eqn:E; [|done].
  apply boardAt_Some in E as (row & Hrow & Hcell).
  apply zlookup_In in Hrow, Hcell.
  unfold noKing in Hno. rewrite Forall_forall in Hno.
  specialize (Hno row). rewrite <- list_elem_of_In in Hrow.
  specialize (Hno Hrow). rewrite Forall_forall in Hno.
  rewrite <- list_elem_of_In in Hcell. specialize (Hno _ Hcell).
  destruct p as [k' t]. simpl.
  repeat case_bool_decide; simpl; try done. by subst.
Qed.

(** C9: on a position without a king of colour [k], [inCheck] answers
    false for [k]. *)
Theorem inCheck_without_king (pos : Position) (k : Color) :
  wf_position pos → noKing pos k → inCheck pos k = false.
Proof.
  intros _ Hno. unfold inCheck. by rewrite findKing_noKing.
Qed.

Lemma wf_emptyBoard : wf_position (mkPosition emptyBoard).
Proof. split; [reflexivity|]. repeat constructor. Qed.

Lemma inCheck_without_king_empty :
  inCheck (mkPosition emptyBoard) W = false.
Proof.
  apply inCheck_without_king.
  - exact wf_emptyBoard.
  - repeat (constructor; try done).
Defined.

(** ** The legal-move filter *)

Lemma in_generateLegalMoves pos turn m :
  In m (generateLegalMoves pos turn) ↔
  ∃ sq p, insideSquare sq = true
     ∧ boardAt pos (r sq) (c sq) = Some p ∧ color p = turn
     ∧ In m (pseudoLegalMovesForSquare pos sq)
     ∧ wouldLeaveKingInCheck pos m turn = false.
Proof.
  unfold generateLegalMoves. rewrite in_flat_map. split.
  - intros (sq & Hsq & Hm). apply in_allSquares in Hsq.
    unfold legalFrom in Hm.
    destruct (boardAt pos (r sq) (c sq)) as [p|] eqn:E; [|done].
    case_bool_decide; simpl in Hm; [|done].
    apply filter_In in Hm as [Hm Hsafe].
    apply negb_true_iff in Hsafe. eauto 10.
  - intros (sq & p & Hsq & E & Hk & Hm & Hsafe).
    exists sq. split; [by apply in_allSquares|].
    unfold legalFrom. rewrite E. rewrite bool_decide_eq_true_2 by done. simpl.
    apply filter_In. split; [done|]. by rewrite Hsafe.
Qed.

(** C1: applying a move returned by [generateLegalMoves] gives a position
    in which the mover is not in check: the square of the mover's king, as
    [findKing] reports it, is not attacked by the opposite colour. *)
Theorem legal_moves_keep_king_safe (pos : Position) (turn : Color) (m : Move) :
  wf_position pos →
  In m (generateLegalMoves pos turn) →
  inCheck (applyMove pos m) turn = false
  ∧ ∀ kingSq, findKing (applyMove pos m) turn = Some kingSq →
      isSquareAttacked (applyMove pos m) kingSq (opposite turn) = false.
Proof.
  intros _ Hm. apply in_generateLegalMoves in Hm
    as (sq & p & _ & _ & _ & _ & Hsafe).
  unfold wouldLeaveKingInCheck in Hsafe. split; [done|].
  intros kingSq Hk. unfold inCheck in Hsafe. by rewrite Hk in Hsafe.
Qed.

Lemma wf_createInitialPosition : wf_position createInitialPosition.
Proof. split; [reflexivity|]. repeat constructor. Qed.

Lemma legal_moves_keep_king_safe_e4 :
  let m := quietMove (mkSquare 6 4) (mkSquare 4 4) in
  inCheck (applyMove createInitialPosition m) W = false
  ∧ ∀ kingSq, findKing (applyMove createInitialPosition m) W = Some kingSq →
      isSquareAttacked (applyMove createInitialPosition m) kingSq (opposite W)
        = false.
Proof.
  apply legal_moves_keep_king_safe.
  - exact wf_createInitialPosition.
  - vm_compute. tauto.
Defined.

(** ** Notation *)

Lemma pieceLetter_spec t :
  pieceLetter t =
  match t with
  | Pawn => ""
  | King => "K" | Queen => "Q" | Rook => "R" | Bishop => "B" | Knight => "N"
  end.
Proof. by destruct t. Qed.

(** C8: for a move whose origin square holds a piece, [makeMove] returns the
    position of [applyMove] and the notation string made of the piece
    letter (none for a pawn), the origin square, 'x' when the move carries a
    captured piece and '-' otherwise, the destination square, and '=Q' when
    the move carries the promotion marker. *)
Theorem makeMove_notation (pos : Position) (m : Move) (piece : Piece) :
  wf_position pos →
  insideSquare (to m) = true →
  boardAt pos (r (from m)) (c (from m)) = Some piece →
  makeMove pos m = (applyMove pos m, notationSpec piece m).
Proof.
  intros _ _ Hpiece. unfold makeMove, moveToSANLike, notationSpec.
  rewrite Hpiece, pieceLetter_spec.
  destruct (promotion m) as [[]|]; reflexivity.
Qed.

Lemma makeMove_notation_knight :
  makeMove createInitialPosition (quietMove (mkSquare 7 1) (mkSquare 5 2))
  = (applyMove createInitialPosition (quietMove (mkSquare 7 1) (mkSquare 5 2)),
     "Nb1-c3").
Proof.
  apply (makeMove_notation createInitialPosition
           (quietMove (mkSquare 7 1) (mkSquare 5 2)) (mkPiece W Knight)).
  - exact wf_createInitialPosition.
  - reflexivity.
  - reflexivity.
Defined.

(** ** Writing the board *)

Lemma zlookup_zinsert {A} (a : list A) i v i' :
  0 ≤ i < Z.of_nat (length a) →
  zlookup (zinsert a i v) i' = if bool_decide (i' = i) then Some v else zlookup a i'.
Proof.
  intros Hi. unfold zlookup, zinsert.
  destruct (Z.leb_spec 0 i); [|lia].
  case_bool_decide as E.
  - subst i'. destruct (Z.leb_spec 0 i); [|lia].
    apply list_lookup_insert_eq. lia.
  - destruct (Z.leb_spec 0 i'); [|done].
    apply list_lookup_insert_ne. lia.
Qed.

Lemma length_zinsert {A} (a : list A) i v : length (zinsert a i v) = length a.
Proof. unfold zinsert. destruct (0 <=? i); [apply length_insert|done]. Qed.

Lemma wf_row pos i :
  wf_position pos → 0 ≤ i < 8 →
  ∃ row, zlookup (board pos) i = Some row ∧ length row = 8%nat.
Proof.
  intros [Hlen Hrows] Hi.
  destruct (lookup_lt_is_Some_2 (board pos) (Z.to_nat i)) as [row Hrow]; [lia|].
  exists row. split.
  - apply zlookup_Some. split; [lia|done].
  - rewrite Forall_forall in Hrows. apply Hrows.
    by eapply list_elem_of_lookup_2.
Qed.

Lemma wf_boardSet b i j v :
  wf_position (mkPosition b) → wf_position (mkPosition (boardSet b i j v)).
Proof.
  intros [Hlen Hrows]. simpl in *. unfold boardSet.
  destruct (zlookup b i) as [row|] eqn:E; [|done].
  split; simpl.
  - by rewrite length_zinsert.
  - unfold zinsert at 1. destruct (0 <=? i); [|done].
    apply Forall_insert; [done|]. rewrite length_zinsert.
    rewrite Forall_forall in Hrows. apply Hrows.
    apply zlookup_In in E. by apply list_elem_of_In.
Qed.

Lemma boardAt_boardSet b i j v i' j' :
  wf_position (mkPosition b) → inside i j = true →
  boardAt (mkPosition (boardSet b i j v)) i' j'
  = if bool_decide (i' = i ∧ j' = j) then v else boardAt (mkPosition b) i' j'.
Proof.
  intros Hwf Hin. apply inside_spec in Hin as [Hi Hj].
  destruct (wf_row _ i Hwf Hi) as (row & Hrow & Hlen). simpl in Hrow.
  destruct Hwf as [Hb _]. simpl in Hb.
  unfold boardAt, boardSet. simpl. rewrite Hrow.
  rewrite zlookup_zinsert by lia.
  case_bool_decide as Ei.
  - subst i'. rewrite zlookup_zinsert by lia. rewrite Hrow.
    repeat case_bool_decide; try done; tauto.
  - rewrite bool_decide_eq_false_2 by tauto. done.
Qed.

Lemma clonePosition_id pos : clonePosition pos = pos.
Proof.
  destruct pos as [b]. unfold clonePosition. simpl. f_equal.
  rewrite <- (map_id b) at 2. apply map_ext. intros row.
  rewrite <- (map_id row) at 2. apply map_ext. by intros [[]|].
Qed.

Lemma applyMove_unfold pos m :
  applyMove pos m
  = mkPosition
      (boardSet (boardSet (board pos) (r (from m)) (c (from m)) None)
                (r (to m)) (c (to m)) (placedPiece pos m)).
Proof.
  unfold applyMove, placedPiece. rewrite clonePosition_id.
  destruct (boardAt pos (r (from m)) (c (from m))) as [p|]; [|done].
  by destruct (bool_decide (type p = Pawn)), (promotion m).
Qed.

Lemma wf_applyMove pos m : wf_position pos → wf_position (applyMove pos m).
Proof.
  intros Hwf. rewrite applyMove_unfold. destruct pos as [b].
  by do 2 apply wf_boardSet.
Qed.

(** What [applyMove] leaves on each square. *)
Lemma boardAt_applyMove pos m i j :
  wf_position pos →
  insideSquare (from m) = true → insideSquare (to m) = true →
  boardAt (applyMove pos m) i j
  = if bool_decide (i = r (to m) ∧ j = c (to m)) then placedPiece pos m
    else if bool_decide (i = r (from m) ∧ j = c (from m)) then None
    else boardAt pos i j.
Proof.
  intros Hwf Hf Ht. rewrite applyMove_unfold. destruct pos as [b].
  rewrite boardAt_boardSet; [|by apply wf_boardSet|done].
  case_bool_decide; [done|].
  by rewrite boardAt_boardSet.
Qed.

(** ** The pseudo-legal generator *)

Lemma boardAt_Some_inside pos i j p :
  wf_position pos → boardAt pos i j = Some p → inside i j = true.
Proof.
  intros [Hlen Hrows] H. apply boardAt_Some in H as (row & Hrow & Hcell).
  assert (Hr : length row = 8%nat).
  { rewrite Forall_forall in Hrows. apply Hrows.
    apply list_elem_of_In. by eapply zlookup_In. }
  apply zlookup_Some in Hrow as [Hi Hrow], Hcell as [Hj Hcell].
  apply lookup_lt_Some in Hrow, Hcell.
  apply inside_spec. lia.
Qed.

Lemma in_pushIfValid moves pos from i j k m :
  In m (pushIfValid moves pos from i j k) ↔
  In m moves ∨ (landable pos k i j ∧ m = stepMove pos from i j).
Proof.
  unfold pushIfValid, landable, stepMove, quietMove, captureMove.
  destruct (inside i j); simpl; [|intuition congruence].
  destruct (boardAt pos i j) as [q|].
  - case_bool_decide as E; simpl.
    + split; [intros H; left; exact H|].
      intros [H|[[_ H] _]]; [done|]. by destruct (H q).
    + rewrite in_app_iff. simpl. split.
      * intros [H|[<-|[]]]; [by left|]. right. split; [|done].
        split; [done|]. by intros ? [= <-].
      * intros [H|[_ ->]]; auto.
  - rewrite in_app_iff. simpl. split.
    + intros [H|[<-|[]]]; [by left|]. right. by repeat split.
    + intros [H|[_ ->]]; auto.
Qed.

Lemma in_pushDeltas_from pos from k deltas acc m :
  In m (fold_left
          (λ moves d, pushIfValid moves pos from (r from + d.1) (c from + d.2) k)
          deltas acc) ↔
  In m acc ∨ ∃ d, In d deltas
    ∧ landable pos k (r from + d.1) (c from + d.2)
    ∧ m = stepMove pos from (r from + d.1) (c from + d.2).
Proof.
  revert acc. induction deltas as [|d deltas IH]; intros acc; simpl.
  - split; [auto|]. intros [H|(d & [] & _)]. done.
  - rewrite IH, in_pushIfValid. split.
    + intros [[H|[H1 H2]]|(d' & Hd & H)]; eauto 8.
    + intros [H|(d' & [<-|Hd] & H1 & H2)]; eauto 8.
Qed.

Lemma in_pushDeltas pos from k deltas m :
  In m (pushDeltas pos from k deltas) ↔
  ∃ d, In d deltas
    ∧ landable pos k (r from + d.1) (c from + d.2)
    ∧ m = stepMove pos from (r from + d.1) (c from + d.2).
Proof.
  unfold pushDeltas. rewrite in_pushDeltas_from. simpl. tauto.
Qed.

(** The moves of one direction: the loop accepts the [n]-th square it visits
    when all squares before it are on the board and empty. *)
Lemma in_slide fuel pos from k dr dc i j m :
  In m (slide fuel pos from k dr dc i j) ↔
  ∃ n : nat, (n < fuel)%nat
    ∧ (∀ t : nat, (t < n)%nat →
         inside (i + Z.of_nat t * dr) (j + Z.of_nat t * dc) = true
         ∧ boardAt pos (i + Z.of_nat t * dr) (j + Z.of_nat t * dc) = None)
    ∧ landable pos k (i + Z.of_nat n * dr) (j + Z.of_nat n * dc)
    ∧ m = stepMove pos from (i + Z.of_nat n * dr) (j + Z.of_nat n * dc).
Proof.
  revert i j. induction fuel as [|fuel IH]; intros i j; simpl.
  - split; [done|]. intros (n & Hn & _). lia.
  - assert (Hshift : ∀ (n : nat) x dx,
              x + Z.of_nat (S n) * dx = x + dx + Z.of_nat n * dx) by (intros; lia).
    assert (Hzero : ∀ x dx, x + Z.of_nat 0 * dx = x) by (intros; lia).
    split.
    + destruct (inside i j) eqn:Hin; [|done].
      destruct (boardAt pos i j) as [q|] eqn:Hq.
      * case_bool_decide as E; simpl; [done|].
        intros [<-|[]]. exists 0%nat. rewrite !Hzero.
        split; [lia|]. split; [intros; lia|]. split.
        -- split; [done|]. intros q' Hq'. by simplify_eq.
        -- unfold stepMove, captureMove. by rewrite Hq.
      * intros [<-|H].
        -- exists 0%nat. rewrite !Hzero.
           split; [lia|]. split; [intros; lia|]. split.
           ++ split; [done|]. intros q' Hq'. by simplify_eq.
           ++ unfold stepMove, quietMove. by rewrite Hq.
        -- apply IH in H as (n & Hn & Hbefore & Hland & ->).
           exists (S n). rewrite !Hshift. split; [lia|]. split; [|done].
           intros [|t] Ht; [by rewrite !Hzero|].
           rewrite !Hshift. apply Hbefore. lia.
    + intros (n & Hn & Hbefore & Hland & ->).
      destruct n as [|n].
      * rewrite !Hzero in *. destruct Hland as [Hin Hcol]. rewrite Hin.
        destruct (boardAt pos i j) as [q|] eqn:Hq.
        -- rewrite bool_decide_eq_false_2 by (by apply Hcol). simpl. left.
           unfold stepMove, captureMove. by rewrite Hq.
        -- left. unfold stepMove, quietMove. by rewrite Hq.
      * destruct (Hbefore 0%nat) as [Hin Hq]; [lia|].
        rewrite !Hzero in Hin, Hq. rewrite Hin, Hq. right.
        apply IH. exists n. rewrite !Hshift in *.
        split; [lia|]. split; [|done].
        intros t Ht. specialize (Hbefore (S t)). rewrite !Hshift in Hbefore.
        apply Hbefore. lia.
Qed.

(** Once the loop has left the board, more fuel changes nothing. *)
Lemma slide_fuel_stable fuel fuel' pos from k dr dc i j (n : nat) :
  (n ≤ fuel)%nat → (fuel ≤ fuel')%nat →
  inside (i + Z.of_nat n * dr) (j + Z.of_nat n * dc) = false →
  slide fuel' pos from k dr dc i j = slide fuel pos from k dr dc i j.
Proof.
  revert fuel' i j n. induction fuel as [|fuel IH]; intros fuel' i j n Hn Hf Hout.
  - assert (n = 0%nat) as -> by lia.
    replace (i + Z.of_nat 0 * dr) with i in Hout by lia.
    replace (j + Z.of_nat 0 * dc) with j in Hout by lia.
    destruct fuel'; simpl; [done|]. by rewrite Hout.
  - destruct fuel' as [|fuel']; [lia|]. simpl.
    destruct (inside i j) eqn:Hin; [|done].
    destruct (boardAt pos i j); [done|]. f_equal.
    destruct n as [|n].
    + replace (i + Z.of_nat 0 * dr) with i in Hout by lia.
      replace (j + Z.of_nat 0 * dc) with j in Hout by lia. congruence.
    + apply (IH _ _ _ n); [lia|lia|].
      replace (i + dr + Z.of_nat n * dr) with (i + Z.of_nat (S n) * dr) by lia.
      by replace (j + dc + Z.of_nat n * dc) with (j + Z.of_nat (S n) * dc) by lia.
Qed.

(** X12: for every direction other than (0, 0) the loop ends within [slideFuel]
    rounds: any larger amount of fuel gives the same moves. *)
Lemma slide_fuel_enough fuel pos from k dr dc i j :
  (dr, dc) ≠ (0, 0) → (slideFuel ≤ fuel)%nat →
  slide fuel pos from k dr dc i j = slide slideFuel pos from k dr dc i j.
Proof.
  intros Hd Hf. destruct (inside i j) eqn:Hin.
  - apply (slide_fuel_stable _ _ _ _ _ _ _ _ _ 8%nat); [done|done|].
    apply inside_spec in Hin. apply inside_false.
    assert (dr ≠ 0 ∨ dc ≠ 0) as [H|H]
      by (destruct (decide (dr = 0)); [right; congruence|by left]); lia.
  - apply (slide_fuel_stable _ _ _ _ _ _ _ _ _ 0%nat); [unfold slideFuel; lia|lia|].
    by replace (i + Z.of_nat 0 * dr) with i by lia;
       replace (j + Z.of_nat 0 * dc) with j by lia.
Qed.

(** The moves of [genSliding], in terms of the rays that leave [from]. *)
Lemma in_genSliding pos from k deltas m :
  In m (genSliding pos from k deltas) ↔
  ∃ d n, In d deltas ∧ 1 ≤ n ≤ 8
    ∧ emptyBefore pos from d n
    ∧ landable pos k (r (rayAt from d n)) (c (rayAt from d n))
    ∧ m = stepMove pos from (r (rayAt from d n)) (c (rayAt from d n)).
Proof.
  unfold genSliding. rewrite in_flat_map. unfold emptyBefore, rayAt,
    insideSquare, pieceOn. cbn [r c]. split.
  - intros (d & Hd & Hm). apply in_slide in Hm as (n & Hn & Hbefore & Hland & ->).
    exists d, (Z.of_nat n + 1). unfold slideFuel in Hn.
    replace (r from + (Z.of_nat n + 1) * d.1)
      with (r from + d.1 + Z.of_nat n * d.1) by lia.
    replace (c from + (Z.of_nat n + 1) * d.2)
      with (c from + d.2 + Z.of_nat n * d.2) by lia.
    split; [done|]. split; [lia|]. split; [|done].
    intros t Ht. specialize (Hbefore (Z.to_nat (t - 1))).
    rewrite Z2Nat.id in Hbefore by lia.
    replace (r from + d.1 + (t - 1) * d.1)
      with (r from + t * d.1) in Hbefore by lia.
    replace (c from + d.2 + (t - 1) * d.2)
      with (c from + t * d.2) in Hbefore by lia.
    apply Hbefore. lia.
  - intros (d & n & Hd & Hn & Hbefore & Hland & ->).
    exists d. split; [done|]. apply in_slide.
    exists (Z.to_nat (n - 1)). rewrite Z2Nat.id by lia.
    replace (r from + d.1 + (n - 1) * d.1) with (r from + n * d.1) by lia.
    replace (c from + d.2 + (n - 1) * d.2) with (c from + n * d.2) by lia.
    split; [unfold slideFuel; lia|]. split; [|done].
    intros t Ht. specialize (Hbefore (Z.of_nat t + 1)).
    replace (r from + (Z.of_nat t + 1) * d.1)
      with (r from + d.1 + Z.of_nat t * d.1) in Hbefore by lia.
    replace (c from + (Z.of_nat t + 1) * d.2)
      with (c from + d.2 + Z.of_nat t * d.2) in Hbefore by lia.
    apply Hbefore. lia.
Qed.


(** ** Sliding pieces *)

Lemma slidingDeltas_queen t d : In d (slidingDeltas t) → In d queenDeltas.
Proof. destruct t; simpl; tauto. Qed.

(** Two rays from the same square meet only if they are the same ray, at
    the same distance. *)
Lemma ray_unique d d' n n' :
  In d queenDeltas → In d' queenDeltas → 1 ≤ n → 1 ≤ n' →
  n * d.1 = n' * d'.1 → n * d.2 = n' * d'.2 → d = d' ∧ n = n'.
Proof.
  unfold queenDeltas. simpl. intros Hd Hd' Hn Hn'.
  repeat (destruct Hd as [<-|Hd]; [|]); try done;
    repeat (destruct Hd' as [<-|Hd']; [|]); try done; simpl; intros;
    first [split; [reflexivity|lia] | exfalso; lia].
Qed.

Lemma ray_bound from d n :
  insideSquare from = true → In d queenDeltas → 1 ≤ n →
  insideSquare (rayAt from d n) = true → n ≤ 7.
Proof.
  unfold insideSquare, rayAt. cbn [r c]. rewrite !inside_spec.
  unfold queenDeltas. simpl. intros Hf Hd Hn Hray.
  repeat (destruct Hd as [<-|Hd]; [simpl in Hray; lia|]). done.
Qed.

Lemma pseudoLegal_sliding pos from piece d :
  pieceOn pos from = Some piece → In d (slidingDeltas (type piece)) →
  pseudoLegalMovesForSquare pos from
  = genSliding pos from (color piece) (slidingDeltas (type piece)).
Proof.
  unfold pieceOn, pseudoLegalMovesForSquare. intros -> Hd.
  by destruct (type piece).
Qed.

(** C5: for a bishop, rook or queen on [from] and a direction [d] of that
    piece, the pseudo-legal moves contain a move without capture to every
    square of the ray that is reached over empty squares and is empty; at
    the first occupied square of the ray they contain the capture of the
    piece found there exactly when that piece has the other colour, and no
    move to any square of the ray beyond it; and no move ends on a square
    that holds a piece of the mover's colour. *)
Theorem sliding_moves (pos : Position) (from : Square) (piece : Piece)
    (d : Z * Z) :
  wf_position pos →
  pieceOn pos from = Some piece →
  In d (slidingDeltas (type piece)) →
  let moves := pseudoLegalMovesForSquare pos from in
  (∀ n, 1 ≤ n → emptyBefore pos from d (n + 1) →
     In (quietMove from (rayAt from d n)) moves)
  ∧ (∀ n target, 1 ≤ n → emptyBefore pos from d n →
       insideSquare (rayAt from d n) = true →
       pieceOn pos (rayAt from d n) = Some target →
       (In (captureMove from (rayAt from d n) target) moves
          ↔ color target ≠ color piece)
       ∧ (∀ m t, In m moves → n < t → to m ≠ rayAt from d t))
  ∧ (∀ m q, In m moves → pieceOn pos (to m) = Some q → color q ≠ color piece).
Proof.
  intros Hwf Hpiece Hd. cbv zeta.
  rewrite (pseudoLegal_sliding _ _ _ _ Hpiece Hd).
  assert (Hfrom : insideSquare from = true)
    by (eapply boardAt_Some_inside; [exact Hwf|exact Hpiece]).
  pose proof (slidingDeltas_queen _ _ Hd) as Hq.
  split; [|split].
  - intros n Hn Hempty. destruct (Hempty n) as [Hin Hnone]; [lia|].
    apply in_genSliding. exists d, n. split; [done|].
    pose proof (ray_bound _ _ _ Hfrom Hq Hn Hin). split; [lia|].
    split; [intros t Ht; apply Hempty; lia|]. split.
    + split; [exact Hin|]. unfold pieceOn in Hnone. congruence.
    + unfold stepMove, quietMove. unfold pieceOn in Hnone. by rewrite Hnone.
  - intros n target Hn Hempty Hin Htarget. split; [split|].
    + intros Hm. apply in_genSliding in Hm
        as (d' & n' & _ & _ & _ & [_ Hland] & Heq).
      unfold stepMove, captureMove in Heq. injection Heq as _ _ Hcap.
      apply Hland. symmetry. exact Hcap.
    + intros Hcol. apply in_genSliding. exists d, n. split; [done|].
      pose proof (ray_bound _ _ _ Hfrom Hq Hn Hin). split; [lia|].
      split; [done|]. split.
      * split; [exact Hin|]. unfold pieceOn in Htarget.
        intros q' Hq'. by simplify_eq.
      * unfold stepMove, captureMove. unfold pieceOn in Htarget.
        by rewrite Htarget.
    + intros m t Hm Ht Hto. apply in_genSliding in Hm
        as (d' & n' & Hd' & Hn' & Hempty' & _ & ->).
      unfold stepMove, rayAt in Hto. cbn [to r c] in Hto.
      injection Hto as Hr Hc.
      destruct (ray_unique d' d n' t) as [-> ->];
        [by eapply slidingDeltas_queen|done|lia|lia|lia|lia|].
      destruct (Hempty' n) as [_ Hnone]; [lia|]. congruence.
  - intros m q Hm Hq'. apply in_genSliding in Hm
      as (d' & n' & _ & _ & _ & [_ Hland] & ->).
    apply Hland. exact Hq'.
Qed.

Lemma sliding_moves_queen_h4 :
  let pos := foolsMatePosition in
  let sq := mkSquare 4 7 in
  let piece := mkPiece B Queen in
  let d := (1, -1) in
  let moves := pseudoLegalMovesForSquare pos sq in
  (∀ n, 1 ≤ n → emptyBefore pos sq d (n + 1) →
     In (quietMove sq (rayAt sq d n)) moves)
  ∧ (∀ n target, 1 ≤ n → emptyBefore pos sq d n →
       insideSquare (rayAt sq d n) = true →
       pieceOn pos (rayAt sq d n) = Some target →
       (In (captureMove sq (rayAt sq d n) target) moves
          ↔ color target ≠ color piece)
       ∧ (∀ m t, In m moves → n < t → to m ≠ rayAt sq d t))
  ∧ (∀ m q, In m moves → pieceOn pos (to m) = Some q → color q ≠ color piece).
Proof.
  apply (sliding_moves foolsMatePosition (mkSquare 4 7) (mkPiece B Queen) (1, -1)).
  - split; [reflexivity|]. vm_compute. repeat constructor.
  - reflexivity.
  - simpl. tauto.
Defined.

(** ** Promotion *)

Lemma in_pawnMoves pos sq k m :
  In m (pawnMoves pos sq k) → from m = sq ∧ insideSquare (to m) = true.
Proof.
  unfold pawnMoves. cbv zeta. rewrite in_app_iff. intros [H|H].
  - destruct (inside _ _ && isEmpty _ _ _) eqn:E in H; [|done].
    apply andb_true_iff in E as [Hin _].
    apply in_app_iff in H as [H|H].
    + destruct (_ || _) in H; destruct H as [<-|[]]; auto.
    + destruct (_ && _ && _) eqn:E2 in H; [|done].
      apply andb_true_iff in E2 as [E2 _]. apply andb_true_iff in E2 as [_ E2].
      destruct H as [<-|[]]; auto.
  - apply in_flat_map in H as (dc & _ & H).
    destruct (inside _ _) eqn:Hin in H; simpl in H; [|done].
    destruct (isEnemy _ _ _ _) in H; [|done].
    destruct (_ || _) in H; destruct H as [<-|[]]; auto.
Qed.

(** A white pawn on row 1 only has moves to row 0, all of them tagged with
    the promotion marker. *)
Lemma in_pawnMoves_row1 pos j m :
  In m (pawnMoves pos (mkSquare 1 j) W) →
  promotion m = Some PromoQ ∧ r (to m) = 0.
Proof.
  unfold pawnMoves. cbv zeta. rewrite in_app_iff. cbn [r c].
  rewrite bool_decide_eq_true_2 by done.
  change (1 + -1) with 0. change (1 =? 6) with false. change (0 =? 0) with true.
  cbn [orb andb]. intros [H|H].
  - destruct (inside _ _ && isEmpty _ _ _) in H; [|done].
    simpl in H. destruct H as [<-|[]]; auto.
  - apply in_flat_map in H as (dc & _ & H).
    destruct (inside _ _) in H; simpl in H; [|done].
    destruct (isEnemy _ _ _ _) in H; [|done].
    destruct H as [<-|[]]; auto.
Qed.

(** Every pseudo-legal move starts on the square it was generated for and
    ends on the board. *)
Lemma in_pseudoLegal pos sq m :
  In m (pseudoLegalMovesForSquare pos sq) →
  from m = sq ∧ insideSquare (to m) = true.
Proof.
  unfold pseudoLegalMovesForSquare.
  destruct (boardAt pos (r sq) (c sq)) as [p|]; [|done].
  destruct (type p).
  - intros (d & _ & [Hin _] & ->)%in_pushDeltas. auto.
  - intros (d & n & _ & _ & _ & [Hin _] & ->)%in_genSliding. auto.
  - intros (d & n & _ & _ & _ & [Hin _] & ->)%in_genSliding. auto.
  - intros (d & n & _ & _ & _ & [Hin _] & ->)%in_genSliding. auto.
  - intros (d & _ & [Hin _] & ->)%in_pushDeltas. auto.
  - apply in_pawnMoves.
Qed.

Lemma append_assoc (s1 s2 s3 : string) :
  (s1 +:+ s2) +:+ s3 = s1 +:+ (s2 +:+ s3).
Proof.
  induction s1 as [|a s1 IH]; [done|].
  change (String a ((s1 +:+ s2) +:+ s3) = String a (s1 +:+ (s2 +:+ s3))).
  by rewrite IH.
Qed.

(** C7: a legal move of a white pawn that stands on row 1 ends on row 0;
    [makeMove] leaves a white queen on the destination square, whether the
    move captures or not, and returns a notation string that ends with
    '=Q'. *)
Theorem white_pawn_promotion (pos : Position) (j : Z) (m : Move) :
  wf_position pos →
  pieceOn pos (mkSquare 1 j) = Some (mkPiece W Pawn) →
  In m (generateLegalMoves pos W) →
  from m = mkSquare 1 j →
  r (to m) = 0
  ∧ pieceOn (makeMove pos m).1 (to m) = Some (mkPiece W Queen)
  ∧ endsWith (makeMove pos m).2 "=Q".
Proof.
  intros Hwf Hpawn Hm Hfrom. unfold pieceOn in *. cbn [r c] in Hpawn.
  apply in_generateLegalMoves in Hm as (sq & p & _ & _ & _ & Hm & _).
  pose proof (in_pseudoLegal _ _ _ Hm) as [Hsq Hto].
  assert (sq = mkSquare 1 j) as -> by congruence.
  unfold pseudoLegalMovesForSquare in Hm. cbn [r c] in Hm.
  rewrite Hpawn in Hm. cbn [type color] in Hm.
  apply in_pawnMoves_row1 in Hm as [Hpromo Hrow].
  assert (Hfin : insideSquare (from m) = true).
  { rewrite Hfrom. eapply boardAt_Some_inside; [exact Hwf|exact Hpawn]. }
  split; [exact Hrow|]. split.
  - cbn [makeMove fst]. rewrite boardAt_applyMove by done.
    rewrite bool_decide_eq_true_2 by done.
    unfold placedPiece. rewrite Hfrom. cbn [r c]. by rewrite Hpawn, Hpromo.
  - cbn [makeMove snd]. unfold moveToSANLike. rewrite Hfrom. cbn [r c].
    rewrite Hpawn, Hpromo.
    exists (pieceLetter Pawn +:+ squareToAlgebraic (mkSquare 1 j)
            +:+ (match captured m with Some _ => "x" | None => "-" end)
            +:+ squareToAlgebraic (to m)).
    cbn [type]. rewrite !append_assoc. reflexivity.
Qed.

Lemma wf_promotionPosition : wf_position promotionPosition.
Proof. split; [reflexivity|]. vm_compute. repeat constructor. Qed.

Lemma white_pawn_promotion_hxg8 :
  let m := mkMove (mkSquare 1 7) (mkSquare 0 6) (Some PromoQ)
             (Some (mkPiece B Rook)) in
  r (to m) = 0
  ∧ pieceOn (makeMove promotionPosition m).1 (to m) = Some (mkPiece W Queen)
  ∧ endsWith (makeMove promotionPosition m).2 "=Q".
Proof.
  apply (white_pawn_promotion promotionPosition 7).
  - exact wf_promotionPosition.
  - reflexivity.
  - vm_compute. tauto.
  - reflexivity.
Defined.

(** ** The store *)

Section store.
Import Heap.

Lemma bind_run {A B} (m : M A) (f : A → M B) σ :
  (m ≫= f) σ = match m σ with Some (a, σ') => f a σ' | None => None end.
Proof. reflexivity. Qed.

Lemma mapM_cons_run {A B} (f : A → M B) x l σ :
  mapM f (x :: l) σ
  = match f x σ with
    | Some (y, σ1) =>
        match mapM f l σ1 with
        | Some (k, σ2) => Some (y :: k, σ2)
        | None => None
        end
    | None => None
    end.
Proof.
  change (mapM f (x :: l)) with (y ← f x; k ← mapM f l; mret (y :: k)).
  rewrite bind_run. destruct (f x σ) as [[y σ1]|]; [|done].
  rewrite bind_run. by destruct (mapM f l σ1) as [[k σ2]|].
Qed.

Lemma prefix_lookup (σ σ' : store) l o :
  σ `prefix_of` σ' → σ !! l = Some o → σ' !! l = Some o.
Proof. intros [k ->] H. by apply lookup_app_l_Some. Qed.

Lemma prefix_alloc (σ : store) o : σ `prefix_of` σ ++ [o].
Proof. by exists [o]. Qed.

(** Assigning to an object allocated after [σ0] keeps [σ0]. *)
Lemma prefix_insert (σ0 σ : store) l o :
  σ0 `prefix_of` σ → (length σ0 ≤ l)%nat → σ0 `prefix_of` <[l := o]> σ.
Proof.
  intros [k ->] Hl. exists (<[(l - length σ0)%nat := o]> k).
  by rewrite insert_app_r_alt.
Qed.

(** *** Board values survive allocation *)

Lemma snapCell_prefix σ σ' cell v :
  σ `prefix_of` σ' → snapCell σ cell = Some v → snapCell σ' cell = Some v.
Proof.
  intros Hpre. destruct cell as [l|]; simpl; [|done].
  destruct (σ !! l) as [o|] eqn:E; [|done].
  by rewrite (prefix_lookup _ _ _ _ Hpre E).
Qed.

Lemma snapCells_prefix σ σ' cells cs :
  σ `prefix_of` σ' →
  mapM (snapCell σ) cells = Some cs → mapM (snapCell σ') cells = Some cs.
Proof.
  intros Hpre. rewrite !mapM_Some. intros H.
  eapply Forall2_impl; [exact H|]. intros. by eapply snapCell_prefix.
Qed.

Lemma snapRow_prefix σ σ' row cs :
  σ `prefix_of` σ' → snapRow σ row = Some cs → snapRow σ' row = Some cs.
Proof.
  intros Hpre. unfold snapRow.
  destruct (σ !! row) as [o|] eqn:E; [|done].
  rewrite (prefix_lookup _ _ _ _ Hpre E). destruct o; try done.
  by apply snapCells_prefix.
Qed.

Lemma snapRows_prefix σ σ' rows b :
  σ `prefix_of` σ' →
  mapM (snapRow σ) rows = Some b → mapM (snapRow σ') rows = Some b.
Proof.
  intros Hpre. rewrite !mapM_Some. intros H.
  eapply Forall2_impl; [exact H|]. intros. by eapply snapRow_prefix.
Qed.

Lemma snapshot_prefix σ σ' p pos :
  σ `prefix_of` σ' → snapshot σ p = Some pos → snapshot σ' p = Some pos.
Proof.
  intros Hpre. unfold snapshot.
  destruct (σ !! p) as [[| | |b]|] eqn:E; try done.
  rewrite (prefix_lookup _ _ _ _ Hpre E).
  destruct (σ !! b) as [[| |rows|]|] eqn:Eb; try done.
  rewrite (prefix_lookup _ _ _ _ Hpre Eb).
  destruct (mapM (snapRow σ) rows) as [brd|] eqn:Er; [|done].
  by rewrite (snapRows_prefix _ _ _ _ Hpre Er).
Qed.

(** *** Cloning *)

Lemma cloneCell_spec σ cell v :
  snapCell σ cell = Some v →
  ∃ cell' σ', cloneCell cell σ = Some (cell', σ')
    ∧ σ `prefix_of` σ' ∧ snapCell σ' cell' = Some v.
Proof.
  destruct cell as [l|]; simpl.
  - destruct (σ !! l) as [[p| | |]|] eqn:E; try done. intros [= <-].
    exists (Some (length σ)), (σ ++ [OPiece (mkPiece (color p) (type p))]).
    split; [|split].
    + unfold getPiece, load. rewrite !bind_run, E. reflexivity.
    + apply prefix_alloc.
    + simpl. rewrite lookup_app_r by done.
      rewrite Nat.sub_diag. simpl. by destruct p.
  - intros [= <-]. exists None, σ. by repeat split.
Qed.

Lemma cloneCells_spec σ cells cs :
  mapM (snapCell σ) cells = Some cs →
  ∃ cells' σ', mapM cloneCell cells σ = Some (cells', σ')
    ∧ σ `prefix_of` σ' ∧ mapM (snapCell σ') cells' = Some cs.
Proof.
  revert σ cs. induction cells as [|cell cells IH]; intros σ cs.
  - intros [= <-]. exists [], σ. by repeat split.
  - intros H. apply mapM_Some in H. inversion H as [|? v ? cs' Hv Hcs]; subst.
    apply mapM_Some in Hcs.
    destruct (cloneCell_spec _ _ _ Hv) as (cell' & σ1 & Hrun & Hpre & Hsnap).
    destruct (IH σ1 cs') as (cells' & σ2 & Hrun' & Hpre' & Hsnap');
      [by eapply snapCells_prefix|].
    exists (cell' :: cells'), σ2. split; [|split].
    + by rewrite mapM_cons_run, Hrun, Hrun'.
    + by etrans.
    + apply mapM_Some. constructor; [|by apply mapM_Some].
      by eapply snapCell_prefix.
Qed.

Lemma cloneRow_spec σ row cs :
  snapRow σ row = Some cs →
  ∃ row' σ', cloneRow row σ = Some (row', σ')
    ∧ σ `prefix_of` σ' ∧ (length σ ≤ row' < length σ')%nat
    ∧ snapRow σ' row' = Some cs.
Proof.
  unfold snapRow. destruct (σ !! row) as [[|cells| |]|] eqn:E; try done.
  intros Hcs.
  destruct (cloneCells_spec _ _ _ Hcs) as (cells' & σ1 & Hrun & Hpre & Hsnap).
  exists (length σ1), (σ1 ++ [ORow cells']). split; [|split; [|split]].
  - unfold cloneRow, getCells, load. rewrite !bind_run, E. simpl.
    rewrite bind_run, Hrun. reflexivity.
  - etrans; [exact Hpre|apply prefix_alloc].
  - apply prefix_length in Hpre. rewrite length_app. simpl. lia.
  - rewrite lookup_app_r by done. rewrite Nat.sub_diag. simpl.
    eapply snapCells_prefix; [apply prefix_alloc|done].
Qed.

Lemma cloneRows_spec σ rows b :
  mapM (snapRow σ) rows = Some b →
  ∃ rows' σ', mapM cloneRow rows σ = Some (rows', σ')
    ∧ σ `prefix_of` σ'
    ∧ mapM (snapRow σ') rows' = Some b
    ∧ Forall (λ l, length σ ≤ l < length σ')%nat rows'
    ∧ NoDup rows'.
Proof.
  revert σ b. induction rows as [|row rows IH]; intros σ b.
  - intros [= <-]. exists [], σ. repeat split; try done. constructor.
  - intros H. apply mapM_Some in H. inversion H as [|? cs ? b' Hcs Hb]; subst.
    apply mapM_Some in Hb.
    destruct (cloneRow_spec _ _ _ Hcs)
      as (row' & σ1 & Hrun & Hpre & Hfresh & Hsnap).
    destruct (IH σ1 b')
      as (rows' & σ2 & Hrun' & Hpre' & Hsnap' & Hfresh' & Hnodup);
      [by eapply snapRows_prefix|].
    pose proof (prefix_length _ _ Hpre). pose proof (prefix_length _ _ Hpre').
    exists (row' :: rows'), σ2. split; [|split; [|split; [|split]]].
    + by rewrite mapM_cons_run, Hrun, Hrun'.
    + by etrans.
    + apply mapM_Some. constructor; [|by apply mapM_Some].
      by eapply snapRow_prefix.
    + constructor; [lia|]. eapply Forall_impl; [exact Hfresh'|]. simpl. lia.
    + constructor; [|done]. intros Hin.
      rewrite Forall_forall in Hfresh'. apply Hfresh' in Hin. lia.
Qed.

Lemma freshPosition_snapshot n σ p brd :
  freshPosition n σ p brd → snapshot σ p = Some (mkPosition brd).
Proof.
  intros (b & rows & Hp & Hb & Hrows & _). unfold snapshot.
  by rewrite Hp, Hb, Hrows.
Qed.

Lemma freshPosition_prefix n σ σ' p brd :
  σ `prefix_of` σ' → freshPosition n σ p brd → freshPosition n σ' p brd.
Proof.
  intros Hpre (b & rows & Hp & Hb & Hrows & Hfresh & Hnodup).
  exists b, rows. repeat split; try done.
  - by eapply prefix_lookup.
  - by eapply prefix_lookup.
  - by eapply snapRows_prefix.
Qed.

Lemma clonePosition_spec σ p pos :
  snapshot σ p = Some pos →
  ∃ p' σ', clonePosition p σ = Some (p', σ')
    ∧ σ `prefix_of` σ' ∧ (length σ ≤ p')%nat
    ∧ freshPosition (length σ) σ' p' (board pos).
Proof.
  unfold snapshot.
  destruct (σ !! p) as [[| | |b]|] eqn:Ep; try done.
  destruct (σ !! b) as [[| |rows|]|] eqn:Eb; try done.
  destruct (mapM (snapRow σ) rows) as [brd|] eqn:Er; [|done].
  intros [= <-]. cbn [board].
  destruct (cloneRows_spec _ _ _ Er)
    as (rows' & σ1 & Hrun & Hpre & Hsnap & Hfresh & Hnodup).
  pose proof (prefix_length _ _ Hpre) as Hlen.
  exists (S (length σ1)), ((σ1 ++ [OBoard rows']) ++ [OPosition (length σ1)]).
  assert (Hpre' : σ1 `prefix_of` (σ1 ++ [OBoard rows']) ++ [OPosition (length σ1)])
    by (rewrite <- app_assoc; by eexists).
  split; [|split; [|split]].
  - unfold clonePosition, getBoard, getRows, load.
    rewrite !bind_run, Ep. simpl. rewrite !bind_run, Eb. simpl.
    rewrite !bind_run, Hrun. simpl. unfold alloc. rewrite bind_run.
    rewrite length_app. simpl. by rewrite Nat.add_1_r.
  - by etrans.
  - lia.
  - exists (length σ1), rows'. split; [|split; [|split; [|split]]].
    + rewrite lookup_app_r by (rewrite length_app; simpl; lia).
      rewrite length_app. simpl.
      by replace (S (length σ1) - (length σ1 + 1))%nat with 0%nat by lia.
    + rewrite lookup_app_l by (rewrite length_app; simpl; lia).
      rewrite lookup_app_r by done. by rewrite Nat.sub_diag.
    + by eapply snapRows_prefix.
    + eapply Forall_impl; [exact Hfresh|]. simpl. lia.
    + done.
Qed.

(** The row of a fresh position that holds row [i] of the board. *)
Lemma freshPosition_row n σ p brd i :
  freshPosition n σ p brd → wf_position (mkPosition brd) → 0 ≤ i < 8 →
  ∃ b rows row cells cs,
    σ !! p = Some (OPosition b) ∧ σ !! b = Some (OBoard rows)
    ∧ NoDup rows ∧ Forall (λ l, n ≤ l)%nat rows
    ∧ Forall2 (λ x y, snapRow σ x = Some y) rows brd
    ∧ rows !! Z.to_nat i = Some row ∧ brd !! Z.to_nat i = Some cs
    ∧ σ !! row = Some (ORow cells)
    ∧ Forall2 (λ x y, snapCell σ x = Some y) cells cs
    ∧ length cells = 8%nat ∧ length cs = 8%nat.
Proof.
  intros (b & rows & Hp & Hb & Hrows & Hfresh & Hnodup) [Hlen Hwf] Hi.
  cbn [board] in *. apply mapM_Some in Hrows.
  pose proof (Forall2_length _ _ _ Hrows) as Hlen'.
  destruct (lookup_lt_is_Some_2 rows (Z.to_nat i)) as [row Hrow]; [lia|].
  destruct (Forall2_lookup_l _ _ _ _ _ Hrows Hrow) as (cs & Hcs & Hsnap).
  unfold snapRow in Hsnap.
  destruct (σ !! row) as [[|cells| |]|] eqn:Er; try done.
  apply mapM_Some in Hsnap.
  assert (length cs = 8%nat) by (by eapply Forall_lookup_1 in Hwf).
  pose proof (Forall2_length _ _ _ Hsnap).
  exists b, rows, row, cells, cs. repeat split; try done. lia.
Qed.

Lemma readCell_spec n σ p brd i j :
  freshPosition n σ p brd → wf_position (mkPosition brd) →
  inside i j = true →
  ∃ cell, readCell p i j σ = Some (cell, σ)
    ∧ snapCell σ cell = Some (boardAt (mkPosition brd) i j).
Proof.
  intros Hfresh Hwf [Hi Hj]%inside_spec.
  destruct (freshPosition_row _ _ _ _ i Hfresh Hwf Hi)
    as (b & rows & row & cells & cs & Hp & Hb & _ & _ & _ & Hrow & Hcs
        & Hr & Hcells & Hlen & Hlen').
  destruct (lookup_lt_is_Some_2 cells (Z.to_nat j)) as [cell Hcell]; [lia|].
  destruct (Forall2_lookup_l _ _ _ _ _ Hcells Hcell) as (v & Hv & Hsnap).
  exists cell. split.
  - unfold readCell, getBoard, getRows, getCells, load.
    rewrite !bind_run, Hp. simpl. rewrite !bind_run, Hb. simpl.
    unfold zlookup. destruct (Z.leb_spec 0 i); [|lia]. rewrite Hrow.
    rewrite !bind_run, Hr. simpl.
    destruct (Z.leb_spec 0 j); [|lia]. by rewrite Hcell.
  - rewrite Hsnap. unfold boardAt, zlookup. cbn [board].
    destruct (Z.leb_spec 0 i); [|lia]. rewrite Hcs.
    destruct (Z.leb_spec 0 j); [|lia]. by rewrite Hv.
Qed.

(** *** Assignment to a row *)

Lemma snapCell_assign σ l cells' c0 cell :
  σ !! l = Some (ORow c0) →
  snapCell (<[l := ORow cells']> σ) cell = snapCell σ cell.
Proof.
  intros Hl. destruct cell as [l0|]; simpl; [|done].
  destruct (decide (l0 = l)) as [->|Hne].
  - rewrite list_lookup_insert_eq by (by eapply lookup_lt_Some).
    by rewrite Hl.
  - by rewrite list_lookup_insert_ne.
Qed.

Lemma snapRow_assign σ l cells' c0 row :
  σ !! l = Some (ORow c0) →
  snapRow (<[l := ORow cells']> σ) row
  = if decide (row = l) then mapM (snapCell σ) cells' else snapRow σ row.
Proof.
  intros Hl. unfold snapRow. destruct (decide (row = l)) as [->|Hne].
  - rewrite list_lookup_insert_eq by (by eapply lookup_lt_Some).
    apply mapM_ext. intros. by eapply snapCell_assign.
  - rewrite list_lookup_insert_ne by done.
    destruct (σ !! row) as [[| | |]|]; try done.
    apply mapM_ext. intros. by eapply snapCell_assign.
Qed.

Lemma writeCell_spec n σ p brd i j v pv :
  freshPosition n σ p brd → wf_position (mkPosition brd) →
  inside i j = true → snapCell σ v = Some pv →
  ∃ σ', writeCell p i j v σ = Some ((), σ')
    ∧ (∀ σ0, σ0 `prefix_of` σ → (length σ0 ≤ n)%nat → σ0 `prefix_of` σ')
    ∧ (∀ cell, snapCell σ' cell = snapCell σ cell)
    ∧ freshPosition n σ' p (boardSet brd i j pv).
Proof.
  intros Hfresh Hwf [Hi Hj]%inside_spec Hv.
  destruct (freshPosition_row _ _ _ _ i Hfresh Hwf Hi)
    as (b & rows & row & cells & cs & Hp & Hb & Hnodup & Hge & Hrows & Hrow
        & Hcs & Hr & Hcells & Hlen & Hlen').
  destruct (lookup_lt_is_Some_2 cells (Z.to_nat j)) as [cell Hcell]; [lia|].
  exists (<[row := ORow (zinsert cells j v)]> σ).
  assert (Hrowge : (n ≤ row)%nat) by (by eapply Forall_lookup_1 in Hge).
  pose proof (lookup_lt_Some _ _ _ Hr) as Hrlt.
  split; [|split; [|split]].
  - unfold writeCell, getBoard, getRows, getCells, load, assign.
    rewrite !bind_run, Hp. simpl. rewrite !bind_run, Hb. simpl.
    unfold zlookup. destruct (Z.leb_spec 0 i); [|lia]. rewrite Hrow.
    rewrite !bind_run, Hr. simpl.
    destruct (Z.leb_spec 0 j); [|lia]. rewrite Hcell.
    by rewrite decide_True.
  - intros σ0 Hpre Hn. apply prefix_insert; [done|lia].
  - intros. by eapply snapCell_assign.
  - exists b, rows. split; [|split; [|split; [|done]]].
    + rewrite list_lookup_insert_ne; [done|]. intros ->. congruence.
    + rewrite list_lookup_insert_ne; [done|]. intros ->. congruence.
    + apply mapM_Some. unfold boardSet, zlookup, zinsert.
      destruct (Z.leb_spec 0 i); [|lia]. rewrite Hcs.
      destruct (Z.leb_spec 0 j); [|lia].
      apply Forall2_same_length_lookup. split.
      { rewrite length_insert. by eapply Forall2_length. }
      intros i' x y Hx Hy. rewrite (snapRow_assign _ _ _ _ _ Hr).
      destruct (decide (Z.to_nat i = i')) as [<-|Hne].
      * rewrite list_lookup_insert_eq in Hy
          by (by eapply lookup_lt_Some). simplify_eq.
        rewrite decide_True by done. apply mapM_Some.
        by apply Forall2_insert.
      * rewrite list_lookup_insert_ne in Hy by done.
        rewrite decide_False.
        { exact (Forall2_lookup_lr (λ x y, snapRow σ x = Some y)
                   rows brd i' x y Hrows Hx Hy). }
        intros ->. apply Hne. by eapply NoDup_lookup.
Qed.

End store.

(** *** The mutator *)

(** [applyMove] on the store returns a new position object holding the
    board of the pure [applyMove], and leaves every object of the store it
    was called on as it was. *)
Lemma applyMove_spec σ p pos m :
  Heap.snapshot σ p = Some pos → wf_position pos →
  insideSquare (from m) = true → insideSquare (to m) = true →
  ∃ p' σ', Heap.applyMove p m σ = Some (p', σ')
    ∧ σ `prefix_of` σ' ∧ (length σ ≤ p')%nat
    ∧ Heap.snapshot σ' p' = Some (applyMove pos m).
Proof.
  intros Hsnap Hwf Hfrom Hto. unfold insideSquare in *.
  destruct (clonePosition_spec _ _ _ Hsnap)
    as (p1 & σ1 & Hclone & Hpre1 & Hp1 & Hfresh1).
  destruct pos as [brd]. cbn [board] in Hfresh1.
  destruct (readCell_spec _ _ _ _ _ _ Hfresh1 Hwf Hfrom) as (cell & Hread & Hcell).
  destruct (writeCell_spec _ _ _ _ _ _ None None Hfresh1 Hwf Hfrom eq_refl)
    as (σ2 & Hwrite & Hkeep2 & Hsame2 & Hfresh2).
  assert (Hpre2 : σ `prefix_of` σ2) by (by apply Hkeep2).
  rewrite <- Hsame2 in Hcell.
  assert (Hrest : ∀ placed σ3,
    σ2 `prefix_of` σ3 →
    Heap.snapCell σ3 placed = Some (placedPiece (mkPosition brd) m) →
    ∃ σ', (Heap.writeCell p1 (r (to m)) (c (to m)) placed ≫= λ _, mret p1) σ3
          = Some (p1, σ')
      ∧ σ `prefix_of` σ'
      ∧ Heap.snapshot σ' p1 = Some (applyMove (mkPosition brd) m)).
  { intros placed σ3 Hpre3 Hplaced.
    pose proof (freshPosition_prefix _ _ _ _ _ Hpre3 Hfresh2) as Hfresh3.
    destruct (writeCell_spec _ _ _ _ _ _ placed _ Hfresh3
                (wf_boardSet _ _ _ _ Hwf) Hto Hplaced)
      as (σ4 & Hwrite4 & Hkeep4 & _ & Hfresh4).
    exists σ4. split; [|split].
    - by rewrite bind_run, Hwrite4.
    - apply Hkeep4; [by etrans|done].
    - rewrite applyMove_unfold. by eapply freshPosition_snapshot. }
  assert (Hplace : ∃ σ',
    (placed ←
       match cell with
       | Some l =>
           pc ← Heap.getPiece l;
           if bool_decide (type pc = Pawn) then
             match promotion m with
             | Some q =>
                 l' ← Heap.alloc
                        (Heap.OPiece (mkPiece (color pc) (promotionType q)));
                 mret (Some l')
             | None => mret cell
             end
           else mret cell
       | None => mret cell
       end;
     _ ← Heap.writeCell p1 (r (to m)) (c (to m)) placed; mret p1) σ2
    = Some (p1, σ')
    ∧ σ `prefix_of` σ'
    ∧ Heap.snapshot σ' p1 = Some (applyMove (mkPosition brd) m)).
  { rewrite bind_run. unfold placedPiece in Hrest.
    destruct cell as [l|]; simpl in Hcell.
    - destruct (σ2 !! l) as [[pc| | |]|] eqn:El; try done.
      injection Hcell as Hcell. rewrite <- Hcell in Hrest.
      unfold Heap.getPiece, Heap.load. rewrite !bind_run, El. simpl.
      destruct (bool_decide (type pc = Pawn)).
      + destruct (promotion m) as [q|].
        * unfold Heap.alloc. rewrite bind_run. simpl.
          apply Hrest; [apply prefix_alloc|]. simpl.
          rewrite lookup_app_r by done. by rewrite Nat.sub_diag.
        * apply Hrest; [done|]. simpl. by rewrite El.
      + apply Hrest; [done|]. simpl. by rewrite El.
    - injection Hcell as Hcell. rewrite <- Hcell in Hrest.
      by apply Hrest. }
  destruct Hplace as (σ' & Hrun & Hpre & Hfinal).
  exists p1, σ'. split; [|done].
  unfold Heap.applyMove. rewrite bind_run, Hclone.
  rewrite bind_run, Hread. rewrite bind_run, Hwrite. exact Hrun.
Qed.


Lemma readPosition_run σ p pos :
  Heap.snapshot σ p = Some pos → Heap.readPosition p σ = Some (pos, σ).
Proof. intros H. unfold Heap.readPosition. by rewrite H. Qed.

Lemma wouldLeaveKingInCheck_spec σ p pos m turn :
  Heap.snapshot σ p = Some pos → wf_position pos →
  insideSquare (from m) = true → insideSquare (to m) = true →
  ∃ σ', Heap.wouldLeaveKingInCheck p m turn σ
        = Some (wouldLeaveKingInCheck pos m turn, σ')
    ∧ σ `prefix_of` σ'.
Proof.
  intros Hsnap Hwf Hfrom Hto.
  destruct (applyMove_spec _ _ _ _ Hsnap Hwf Hfrom Hto)
    as (p' & σ' & Hrun & Hpre & _ & Hnext).
  exists σ'. split; [|done].
  unfold Heap.wouldLeaveKingInCheck.
  rewrite bind_run, Hrun. rewrite bind_run, (readPosition_run _ _ _ Hnext).
  reflexivity.
Qed.

Lemma keepSafe_spec σ p pos turn pseudo :
  Heap.snapshot σ p = Some pos → wf_position pos →
  Forall (λ m, insideSquare (from m) = true ∧ insideSquare (to m) = true)
         pseudo →
  ∃ σ', Heap.keepSafe p turn pseudo σ
        = Some (List.filter (λ mv, negb (wouldLeaveKingInCheck pos mv turn))
                            pseudo, σ')
    ∧ σ `prefix_of` σ'.
Proof.
  intros Hsnap Hwf Hall. revert σ Hsnap.
  induction Hall as [|mv pseudo [Hfrom Hto] _ IH]; intros σ Hsnap.
  - exists σ. by split.
  - destruct (wouldLeaveKingInCheck_spec _ _ _ mv turn Hsnap Hwf Hfrom Hto)
      as (σ1 & Hrun & Hpre).
    destruct (IH σ1) as (σ2 & Hrun' & Hpre'); [by eapply snapshot_prefix|].
    exists σ2. split; [|by etrans].
    cbn [Heap.keepSafe List.filter]. rewrite bind_run, Hrun.
    rewrite bind_run, Hrun'. reflexivity.
Qed.

Lemma legalFrom_spec σ p pos turn sq :
  Heap.snapshot σ p = Some pos → wf_position pos →
  insideSquare sq = true →
  ∃ σ', Heap.legalFrom p turn sq σ = Some (legalFrom pos turn sq, σ')
    ∧ σ `prefix_of` σ'.
Proof.
  intros Hsnap Hwf Hsq. unfold Heap.legalFrom, legalFrom.
  rewrite bind_run, (readPosition_run _ _ _ Hsnap).
  destruct (boardAt pos (r sq) (c sq)) as [piece|]; [|by exists σ].
  destruct (negb (bool_decide (color piece = turn))); [by exists σ|].
  apply keepSafe_spec; [done|done|].
  apply Forall_forall. intros m Hm%list_elem_of_In.
  apply in_pseudoLegal in Hm as [-> Hto]. by split.
Qed.

Lemma legalFrom_all_spec σ p pos turn sqs :
  Heap.snapshot σ p = Some pos → wf_position pos →
  Forall (λ sq, insideSquare sq = true) sqs →
  ∃ σ', mapM (Heap.legalFrom p turn) sqs σ
        = Some (map (legalFrom pos turn) sqs, σ')
    ∧ σ `prefix_of` σ'.
Proof.
  intros Hsnap Hwf Hall. revert σ Hsnap.
  induction Hall as [|sq sqs Hsq _ IH]; intros σ Hsnap.
  - exists σ. by split.
  - destruct (legalFrom_spec _ _ _ turn sq Hsnap Hwf Hsq) as (σ1 & Hrun & Hpre).
    destruct (IH σ1) as (σ2 & Hrun' & Hpre'); [by eapply snapshot_prefix|].
    exists σ2. split; [|by etrans].
    by rewrite mapM_cons_run, Hrun, Hrun'.
Qed.

Lemma generateLegalMoves_spec σ p pos turn :
  Heap.snapshot σ p = Some pos → wf_position pos →
  ∃ σ', Heap.generateLegalMoves p turn σ
        = Some (generateLegalMoves pos turn, σ')
    ∧ σ `prefix_of` σ'.
Proof.
  intros Hsnap Hwf.
  destruct (legalFrom_all_spec σ p pos turn allSquares Hsnap Hwf)
    as (σ' & Hrun & Hpre).
  { apply Forall_forall. intros sq Hsq%list_elem_of_In.
    by apply in_allSquares. }
  exists σ'. split; [|done].
  unfold Heap.generateLegalMoves, generateLegalMoves.
  rewrite bind_run, Hrun. by rewrite flat_map_concat_map.
Qed.

Lemma makeMove_spec σ p pos m :
  Heap.snapshot σ p = Some pos → wf_position pos →
  insideSquare (from m) = true → insideSquare (to m) = true →
  ∃ p' σ', Heap.makeMove p m σ = Some ((p', (makeMove pos m).2), σ')
    ∧ σ `prefix_of` σ' ∧ (length σ ≤ p')%nat
    ∧ Heap.snapshot σ' p' = Some (makeMove pos m).1.
Proof.
  intros Hsnap Hwf Hfrom Hto.
  destruct (applyMove_spec _ _ _ _ Hsnap Hwf Hfrom Hto)
    as (p' & σ' & Hrun & Hpre & Hnew & Hnext).
  exists p', σ'. split; [|done].
  unfold Heap.makeMove. rewrite bind_run, Hrun.
  rewrite bind_run, (readPosition_run _ _ pos); [done|].
  by eapply snapshot_prefix.
Qed.

(** C10: [applyMove] and [makeMove] return a position object that did not
    exist before the call and holds the board after the move, and
    [generateLegalMoves] returns the legal moves; after each of the three
    calls every object of the store of the call is unchanged, so the
    argument position has the board it had before. *)
Theorem argument_position_unchanged (σ : Heap.store) (p : Heap.loc)
    (pos : Position) :
  Heap.snapshot σ p = Some pos → wf_position pos →
  (∀ m, insideSquare (from m) = true → insideSquare (to m) = true →
     (∃ p' σ', Heap.applyMove p m σ = Some (p', σ')
        ∧ (length σ ≤ p')%nat
        ∧ Heap.snapshot σ' p' = Some (applyMove pos m)
        ∧ σ `prefix_of` σ'
        ∧ Heap.snapshot σ' p = Some pos)
     ∧ (∃ p' σ', Heap.makeMove p m σ = Some ((p', (makeMove pos m).2), σ')
        ∧ (length σ ≤ p')%nat
        ∧ Heap.snapshot σ' p' = Some (makeMove pos m).1
        ∧ σ `prefix_of` σ'
        ∧ Heap.snapshot σ' p = Some pos))
  ∧ (∀ turn, ∃ σ',
       Heap.generateLegalMoves p turn σ = Some (generateLegalMoves pos turn, σ')
       ∧ σ `prefix_of` σ'
       ∧ Heap.snapshot σ' p = Some pos).
Proof.
  intros Hsnap Hwf. split.
  - intros m Hfrom Hto. split.
    + destruct (applyMove_spec _ _ _ _ Hsnap Hwf Hfrom Hto)
        as (p' & σ' & Hrun & Hpre & Hnew & Hnext).
      exists p', σ'. repeat split; try done. by eapply snapshot_prefix.
    + destruct (makeMove_spec _ _ _ _ Hsnap Hwf Hfrom Hto)
        as (p' & σ' & Hrun & Hpre & Hnew & Hnext).
      exists p', σ'. repeat split; try done. by eapply snapshot_prefix.
  - intros turn.
    destruct (generateLegalMoves_spec _ _ _ turn Hsnap Hwf) as (σ' & Hrun & Hpre).
    exists σ'. repeat split; try done. by eapply snapshot_prefix.
Qed.

Lemma argument_position_unchanged_initial :
  let σ := Heap.initialStore.2 in
  let p := Heap.initialStore.1 in
  let pos := createInitialPosition in
  (∀ m, insideSquare (from m) = true → insideSquare (to m) = true →
     (∃ p' σ', Heap.applyMove p m σ = Some (p', σ')
        ∧ (length σ ≤ p')%nat
        ∧ Heap.snapshot σ' p' = Some (applyMove pos m)
        ∧ σ `prefix_of` σ'
        ∧ Heap.snapshot σ' p = Some pos)
     ∧ (∃ p' σ', Heap.makeMove p m σ = Some ((p', (makeMove pos m).2), σ')
        ∧ (length σ ≤ p')%nat
        ∧ Heap.snapshot σ' p' = Some (makeMove pos m).1
        ∧ σ `prefix_of` σ'
        ∧ Heap.snapshot σ' p = Some pos))
  ∧ (∀ turn, ∃ σ',
       Heap.generateLegalMoves p turn σ = Some (generateLegalMoves pos turn, σ')
       ∧ σ `prefix_of` σ'
       ∧ Heap.snapshot σ' p = Some pos).
Proof.
  apply argument_position_unchanged.
  - vm_compute. reflexivity.
  - exact wf_createInitialPosition.
Defined.

(** * Further properties of the engine *)

(** ** Pawn moves *)

Lemma in_pawnMoves_iff pos sq k m :
  In m (pawnMoves pos sq k) ↔
  (inside (r sq + pawnDir k) (c sq) = true
   ∧ boardAt pos (r sq + pawnDir k) (c sq) = None
   ∧ m = mkMove sq (mkSquare (r sq + pawnDir k) (c sq))
           (promotionAt (r sq + pawnDir k)) None)
  ∨ (inside (r sq + pawnDir k) (c sq) = true
     ∧ boardAt pos (r sq + pawnDir k) (c sq) = None
     ∧ r sq = pawnStartRow k
     ∧ inside (r sq + 2 * pawnDir k) (c sq) = true
     ∧ boardAt pos (r sq + 2 * pawnDir k) (c sq) = None
     ∧ m = quietMove sq (mkSquare (r sq + 2 * pawnDir k) (c sq)))
  ∨ (∃ dc q, (dc = -1 ∨ dc = 1)
       ∧ inside (r sq + pawnDir k) (c sq + dc) = true
       ∧ boardAt pos (r sq + pawnDir k) (c sq + dc) = Some q
       ∧ color q ≠ k
       ∧ m = mkMove sq (mkSquare (r sq + pawnDir k) (c sq + dc))
               (promotionAt (r sq + pawnDir k)) (Some q)).
Proof.
  unfold pawnMoves, pawnDir, pawnStartRow, promotionAt, isEmpty, isEnemy,
    quietMove. cbv zeta.
  set (dir := if bool_decide (k = W) then -1 else 1).
  set (start := if bool_decide (k = W) then 6 else 1).
  set (last := (r sq + dir =? 0) || (r sq + dir =? 7)).
  rewrite in_app_iff. split.
  - intros [H|H].
    + destruct (inside (r sq + dir) (c sq)) eqn:Hin; [|done].
      destruct (boardAt pos (r sq + dir) (c sq)) eqn:Hq; [done|].
      cbn [andb] in H. apply in_app_iff in H as [H|H].
      * left. destruct last; destruct H as [<-|[]]; auto.
      * right. left.
        destruct (r sq =? start) eqn:Hs; [|done]. apply Z.eqb_eq in Hs.
        destruct (inside (r sq + 2 * dir) (c sq)) eqn:Hin2; [|done].
        destruct (boardAt pos (r sq + 2 * dir) (c sq)) eqn:Hq2; [done|].
        destruct H as [<-|[]]. auto 10.
    + right. right. apply in_flat_map in H as (dc & Hdc & H).
      assert (dc = -1 ∨ dc = 1) by (destruct Hdc as [<-|[<-|[]]]; auto).
      destruct (inside (r sq + dir) (c sq + dc)) eqn:Hin; [|done].
      destruct (boardAt pos (r sq + dir) (c sq + dc)) as [q|] eqn:Hq; [|done].
      cbn [negb] in H. case_bool_decide as Hk; [done|]. cbn [negb] in H.
      exists dc, q. destruct last; destruct H as [<-|[]]; auto 10.
  - intros [(Hin & Hq & ->)|[(Hin & Hq & Hs & Hin2 & Hq2 & ->)
                              |(dc & q & Hdc & Hin & Hq & Hk & ->)]].
    + left. rewrite Hin, Hq. cbn [andb]. apply in_app_iff. left.
      destruct last; by left.
    + left. rewrite Hin, Hq. cbn [andb]. apply in_app_iff. right.
      apply Z.eqb_eq in Hs. rewrite Hs, Hin2, Hq2. by left.
    + right. apply in_flat_map. exists dc. split.
      { destruct Hdc as [->| ->]; simpl; auto. }
      rewrite Hin, Hq. cbn [negb]. rewrite bool_decide_eq_false_2 by done.
      cbn [negb]. destruct last; by left.
Qed.

(** X1: the moves of a pawn: one step ahead onto an empty square; two steps
    from the starting row over an empty square onto an empty square; one
    step diagonally ahead onto a piece of the other colour.  A move that
    ends on row 0 or 7 carries the promotion marker. *)
Theorem pawn_moves_spec (pos : Position) (sq : Square) (p : Piece) (m : Move) :
  wf_position pos →
  pieceOn pos sq = Some p → type p = Pawn →
  In m (pseudoLegalMovesForSquare pos sq) ↔
  (inside (r sq + pawnDir (color p)) (c sq) = true
   ∧ boardAt pos (r sq + pawnDir (color p)) (c sq) = None
   ∧ m = mkMove sq (mkSquare (r sq + pawnDir (color p)) (c sq))
           (promotionAt (r sq + pawnDir (color p))) None)
  ∨ (inside (r sq + pawnDir (color p)) (c sq) = true
     ∧ boardAt pos (r sq + pawnDir (color p)) (c sq) = None
     ∧ r sq = pawnStartRow (color p)
     ∧ inside (r sq + 2 * pawnDir (color p)) (c sq) = true
     ∧ boardAt pos (r sq + 2 * pawnDir (color p)) (c sq) = None
     ∧ m = quietMove sq (mkSquare (r sq + 2 * pawnDir (color p)) (c sq)))
  ∨ (∃ dc q, (dc = -1 ∨ dc = 1)
       ∧ inside (r sq + pawnDir (color p)) (c sq + dc) = true
       ∧ boardAt pos (r sq + pawnDir (color p)) (c sq + dc) = Some q
       ∧ color q ≠ color p
       ∧ m = mkMove sq (mkSquare (r sq + pawnDir (color p)) (c sq + dc))
               (promotionAt (r sq + pawnDir (color p))) (Some q)).
Proof.
  intros _ Hp Ht. unfold pieceOn in Hp. unfold pseudoLegalMovesForSquare.
  rewrite Hp, Ht. apply in_pawnMoves_iff.
Qed.

Lemma pawn_moves_spec_e2 :
  let pos := createInitialPosition in
  let sq := mkSquare 6 4 in
  let p := mkPiece W Pawn in
  let m := quietMove (mkSquare 6 4) (mkSquare 4 4) in
  In m (pseudoLegalMovesForSquare pos sq) ↔
  (inside (r sq + pawnDir (color p)) (c sq) = true
   ∧ boardAt pos (r sq + pawnDir (color p)) (c sq) = None
   ∧ m = mkMove sq (mkSquare (r sq + pawnDir (color p)) (c sq))
           (promotionAt (r sq + pawnDir (color p))) None)
  ∨ (inside (r sq + pawnDir (color p)) (c sq) = true
     ∧ boardAt pos (r sq + pawnDir (color p)) (c sq) = None
     ∧ r sq = pawnStartRow (color p)
     ∧ inside (r sq + 2 * pawnDir (color p)) (c sq) = true
     ∧ boardAt pos (r sq + 2 * pawnDir (color p)) (c sq) = None
     ∧ m = quietMove sq (mkSquare (r sq + 2 * pawnDir (color p)) (c sq)))
  ∨ (∃ dc q, (dc = -1 ∨ dc = 1)
       ∧ inside (r sq + pawnDir (color p)) (c sq + dc) = true
       ∧ boardAt pos (r sq + pawnDir (color p)) (c sq + dc) = Some q
       ∧ color q ≠ color p
       ∧ m = mkMove sq (mkSquare (r sq + pawnDir (color p)) (c sq + dc))
               (promotionAt (r sq + pawnDir (color p))) (Some q)).
Proof.
  apply (pawn_moves_spec createInitialPosition (mkSquare 6 4) (mkPiece W Pawn)).
  - exact wf_createInitialPosition.
  - reflexivity.
  - reflexivity.
Defined.

(** ** What every generated move satisfies *)

Lemma in_pseudoLegal_facts pos sq p m :
  pieceOn pos sq = Some p →
  In m (pseudoLegalMovesForSquare pos sq) →
  from m = sq
  ∧ landable pos (color p) (r (to m)) (c (to m))
  ∧ captured m = pieceOn pos (to m)
  ∧ promotion m
    = if bool_decide (type p = Pawn) then promotionAt (r (to m)) else None.
Proof.
  unfold pieceOn, pseudoLegalMovesForSquare. intros ->.
  destruct (type p) eqn:Ht; cbn [bool_decide decide_rel].
  - intros (d & _ & Hland & ->)%in_pushDeltas. by rewrite bool_decide_eq_false_2.
  - intros (d & n & _ & _ & _ & Hland & ->)%in_genSliding.
    by rewrite bool_decide_eq_false_2.
  - intros (d & n & _ & _ & _ & Hland & ->)%in_genSliding.
    by rewrite bool_decide_eq_false_2.
  - intros (d & n & _ & _ & _ & Hland & ->)%in_genSliding.
    by rewrite bool_decide_eq_false_2.
  - intros (d & _ & Hland & ->)%in_pushDeltas. by rewrite bool_decide_eq_false_2.
  - rewrite bool_decide_eq_true_2 by done.
    intros [(Hin & Hq & ->)|[(Hin & Hq & Hs & Hin2 & Hq2 & ->)
                             |(dc & q & Hdc & Hin & Hq & Hk & ->)]]%in_pawnMoves_iff;
      unfold quietMove, landable; cbn [from to promotion captured r c].
    + repeat split; try done. by rewrite Hq.
    + repeat split; try done; [by rewrite Hq2|].
      unfold promotionAt, pawnStartRow, pawnDir in *.
      case_bool_decide; subst; rewrite Hs; reflexivity.
    + repeat split; try done. intros q' Hq'. by simplify_eq.
Qed.

(** X2: a pseudo-legal move of the piece on [sq] starts on [sq], ends on a
    square of the board other than [sq] that holds no piece of the mover's
    colour, records in [captured] exactly what stands on the destination,
    and carries the promotion marker exactly when a pawn reaches row 0 or
    7. *)
Theorem pseudoLegal_invariants (pos : Position) (sq : Square) (p : Piece)
    (m : Move) :
  wf_position pos →
  pieceOn pos sq = Some p →
  In m (pseudoLegalMovesForSquare pos sq) →
  from m = sq
  ∧ insideSquare (to m) = true
  ∧ to m ≠ sq
  ∧ (∀ q, pieceOn pos (to m) = Some q → color q ≠ color p)
  ∧ captured m = pieceOn pos (to m)
  ∧ (promotion m = Some PromoQ ↔
       type p = Pawn ∧ (r (to m) = 0 ∨ r (to m) = 7)).
Proof.
  intros _ Hp Hm.
  destruct (in_pseudoLegal_facts _ _ _ _ Hp Hm) as (Hfrom & [Hin Hown] & Hcap & Hpromo).
  split; [done|]. split; [done|]. split; [|split; [done|split; [done|]]].
  - intros Heq. rewrite Heq in Hown. by apply (Hown p).
  - rewrite Hpromo. unfold promotionAt. case_bool_decide as Ht.
    + destruct (Z.eqb_spec (r (to m)) 0) as [E0|E0];
        [cbn [orb]; split; auto|].
      destruct (Z.eqb_spec (r (to m)) 7) as [E7|E7];
        [cbn [orb]; split; auto|].
      cbn [orb]. split; [done|]. intros [_ [?|?]]; lia.
    + split; [done|]. by intros [? _].
Qed.

Lemma pseudoLegal_invariants_e4 :
  let pos := createInitialPosition in
  let sq := mkSquare 6 4 in
  let p := mkPiece W Pawn in
  let m := quietMove (mkSquare 6 4) (mkSquare 4 4) in
  from m = sq
  ∧ insideSquare (to m) = true
  ∧ to m ≠ sq
  ∧ (∀ q, pieceOn pos (to m) = Some q → color q ≠ color p)
  ∧ captured m = pieceOn pos (to m)
  ∧ (promotion m = Some PromoQ ↔
       type p = Pawn ∧ (r (to m) = 0 ∨ r (to m) = 7)).
Proof.
  apply (pseudoLegal_invariants createInitialPosition (mkSquare 6 4)
           (mkPiece W Pawn)).
  - exact wf_createInitialPosition.
  - reflexivity.
  - vm_compute. tauto.
Defined.

(** X3: a legal move moves a piece of the side to move from a square of the
    board to a square of the board that is empty or holds a piece of the
    other colour; it is one of the pseudo-legal moves of its origin square,
    and its [captured] field is what stands on the destination. *)
Theorem legal_moves_invariants (pos : Position) (turn : Color) (m : Move) :
  wf_position pos →
  In m (generateLegalMoves pos turn) →
  ∃ p, insideSquare (from m) = true
    ∧ pieceOn pos (from m) = Some p ∧ color p = turn
    ∧ In m (pseudoLegalMovesForSquare pos (from m))
    ∧ insideSquare (to m) = true
    ∧ (∀ q, pieceOn pos (to m) = Some q → color q = opposite turn)
    ∧ captured m = pieceOn pos (to m).
Proof.
  intros _ (sq & p & Hsq & Hp & Hk & Hm & _)%in_generateLegalMoves.
  destruct (in_pseudoLegal_facts pos sq p m Hp Hm)
    as (Hfrom & [Hin Hown] & Hcap & _).
  exists p. rewrite Hfrom. repeat split; try done.
  intros q Hq. specialize (Hown q Hq). rewrite Hk in Hown.
  unfold opposite. destruct (color q), turn; done.
Qed.

Lemma legal_moves_invariants_e4 :
  let pos := createInitialPosition in
  let m := quietMove (mkSquare 6 4) (mkSquare 4 4) in
  ∃ p, insideSquare (from m) = true
    ∧ pieceOn pos (from m) = Some p ∧ color p = W
    ∧ In m (pseudoLegalMovesForSquare pos (from m))
    ∧ insideSquare (to m) = true
    ∧ (∀ q, pieceOn pos (to m) = Some q → color q = opposite W)
    ∧ captured m = pieceOn pos (to m).
Proof.
  apply (legal_moves_invariants createInitialPosition W).
  - exact wf_createInitialPosition.
  - vm_compute. tauto.
Defined.

(** X4: two legal moves with the same origin and the same destination are the
    same move: looking a move up by its destination among the moves of one
    origin, as the caller does, finds the only one. *)
Theorem legal_move_determined (pos : Position) (turn : Color) (m1 m2 : Move) :
  wf_position pos →
  In m1 (generateLegalMoves pos turn) →
  In m2 (generateLegalMoves pos turn) →
  from m1 = from m2 → to m1 = to m2 → m1 = m2.
Proof.
  intros _ (sq1 & p1 & _ & Hp1 & _ & Hm1 & _)%in_generateLegalMoves
           (sq2 & p2 & _ & Hp2 & _ & Hm2 & _)%in_generateLegalMoves Hfrom Hto.
  destruct (in_pseudoLegal_facts _ _ _ _ Hp1 Hm1) as (Hf1 & _ & Hc1 & Hq1).
  destruct (in_pseudoLegal_facts _ _ _ _ Hp2 Hm2) as (Hf2 & _ & Hc2 & Hq2).
  assert (sq1 = sq2) as -> by congruence.
  assert (p1 = p2) as -> by congruence.
  rewrite Hto, <- Hc2 in Hc1. rewrite Hto, <- Hq2 in Hq1.
  destruct m1 as [f1 t1 q1 c1], m2 as [f2 t2 q2 c2].
  cbn [from to promotion captured] in *. congruence.
Qed.

Lemma legal_move_determined_e4 :
  quietMove (mkSquare 6 4) (mkSquare 4 4)
  = mkMove (mkSquare 6 4) (mkSquare 4 4) None None.
Proof.
  apply (legal_move_determined createInitialPosition W).
  - exact wf_createInitialPosition.
  - vm_compute. tauto.
  - vm_compute. tauto.
  - reflexivity.
  - reflexivity.
Defined.

(** ** Knight and king *)

Lemma jump_deltas t dr dc :
  t = Knight ∨ t = King →
  jumpShape t dr dc ↔
  In (dr, dc) (match t with Knight => knightDeltas | _ => kingDeltas end).
Proof.
  intros [-> | ->]; unfold jumpShape, knightDeltas, kingDeltas; simpl; split.
  - intros H.
    assert ((dr = 1 ∨ dr = -1 ∨ dr = 2 ∨ dr = -2)
            ∧ (dc = 1 ∨ dc = -1 ∨ dc = 2 ∨ dc = -2)) as [Hr Hc] by lia.
    destruct Hr as [->|[->|[->| ->]]], Hc as [->|[->|[->| ->]]];
      first [exfalso; lia | tauto].
  - intros H. repeat (destruct H as [[= <- <-]|H]; [lia|]). done.
  - intros H.
    assert ((dr = 1 ∨ dr = -1 ∨ dr = 0) ∧ (dc = 1 ∨ dc = -1 ∨ dc = 0))
      as [Hr Hc] by lia.
    destruct Hr as [->|[->| ->]], Hc as [->|[->| ->]];
      first [exfalso; lia | tauto].
  - intros H. repeat (destruct H as [[= <- <-]|H]; [lia|]). done.
Qed.

(** X5: the moves of a knight are exactly its L-shaped jumps, and the moves of a
    king its steps to the eight neighbouring squares, that end on a square
    of the board holding no piece of the mover's colour; nothing between
    origin and destination matters. *)
Theorem knight_king_moves (pos : Position) (sq : Square) (p : Piece) (m : Move) :
  wf_position pos →
  pieceOn pos sq = Some p →
  type p = Knight ∨ type p = King →
  In m (pseudoLegalMovesForSquare pos sq) ↔
  m = stepMove pos sq (r (to m)) (c (to m))
  ∧ landable pos (color p) (r (to m)) (c (to m))
  ∧ jumpShape (type p) (r (to m) - r sq) (c (to m) - c sq).
Proof.
  intros _ Hp Ht. unfold pieceOn in Hp. unfold pseudoLegalMovesForSquare.
  rewrite Hp. rewrite (jump_deltas _ _ _ Ht).
  assert (Hpush : ∀ deltas,
    In m (pushDeltas pos sq (color p) deltas) ↔
    m = stepMove pos sq (r (to m)) (c (to m))
    ∧ landable pos (color p) (r (to m)) (c (to m))
    ∧ In (r (to m) - r sq, c (to m) - c sq) deltas).
  { intros deltas. rewrite in_pushDeltas. split.
    - intros ([dr dc] & Hd & Hland & ->). cbn [fst snd] in *.
      split; [reflexivity|]. unfold stepMove. cbn [to r c].
      split; [exact Hland|].
      by replace (r sq + dr - r sq) with dr by lia;
         replace (c sq + dc - c sq) with dc by lia.
    - intros (Hm & Hland & Hd).
      exists (r (to m) - r sq, c (to m) - c sq). cbn [fst snd].
      replace (r sq + (r (to m) - r sq)) with (r (to m)) by lia.
      by replace (c sq + (c (to m) - c sq)) with (c (to m)) by lia. }
  destruct Ht as [Ht|Ht]; rewrite Ht; apply Hpush.
Qed.

Lemma knight_king_moves_b1 :
  let pos := createInitialPosition in
  let sq := mkSquare 7 1 in
  let p := mkPiece W Knight in
  let m := quietMove (mkSquare 7 1) (mkSquare 5 2) in
  In m (pseudoLegalMovesForSquare pos sq) ↔
  m = stepMove pos sq (r (to m)) (c (to m))
  ∧ landable pos (color p) (r (to m)) (c (to m))
  ∧ jumpShape (type p) (r (to m) - r sq) (c (to m) - c sq).
Proof.
  apply (knight_king_moves createInitialPosition (mkSquare 7 1)
           (mkPiece W Knight)).
  - exact wf_createInitialPosition.
  - reflexivity.
  - left. reflexivity.
Defined.

(** ** The attack oracle *)

Lemma attacksFrom_iff pos square byColor a :
  wf_position pos →
  attacksFrom pos square byColor a = true ↔
  ∃ p, pieceOn pos a = Some p ∧ color p = byColor
       ∧ attackGeometry pos a p (r square) (c square).
Proof.
  intros Hwf. unfold attacksFrom, pieceOn.
  destruct (boardAt pos (r a) (c a)) as [p|] eqn:Hp;
    [|split; [done|by intros (p & ? & _)]].
  assert (Ha : insideSquare a = true) by (by eapply boardAt_Some_inside).
  case_bool_decide as Hk; cbn [negb];
    [|split; [done|intros (p' & [= <-] & ? & _); done]].
  assert (Hpush : ∀ deltas,
    existsb (λ m, (r (to m) =? r square) && (c (to m) =? c square))
            (pushDeltas pos a (color p) deltas) = true ↔
    ∃ d, In d deltas ∧ r square = r a + d.1 ∧ c square = c a + d.2
         ∧ landable pos (color p) (r square) (c square)).
  { intros deltas. rewrite existsb_exists. split.
    - intros (m & (d & Hd & Hland & ->)%in_pushDeltas & Hto).
      cbn [stepMove to r c] in Hto.
      apply andb_true_iff in Hto as [Hr%Z.eqb_eq Hc%Z.eqb_eq].
      exists d. rewrite <- Hr, <- Hc. auto.
    - intros (d & Hd & -> & -> & Hland).
      exists (stepMove pos a (r a + d.1) (c a + d.2)). split.
      + apply in_pushDeltas. eauto.
      + cbn [stepMove to r c]. by rewrite !Z.eqb_refl. }
  assert (Hslide :
    type p = Bishop ∨ type p = Rook ∨ type p = Queen →
    existsb (λ m, (r (to m) =? r square) && (c (to m) =? c square))
            (genSliding pos a (color p) (slidingDeltas (type p))) = true ↔
    ∃ d n, In d (slidingDeltas (type p)) ∧ 1 ≤ n
           ∧ emptyBefore pos a d n
           ∧ r square = r a + n * d.1 ∧ c square = c a + n * d.2
           ∧ landable pos (color p) (r square) (c square)).
  { intros _. rewrite existsb_exists. split.
    - intros (m & (d & n & Hd & Hn & Hempty & Hland & ->)%in_genSliding & Hto).
      cbn [stepMove rayAt to r c] in *.
      apply andb_true_iff in Hto as [Hr%Z.eqb_eq Hc%Z.eqb_eq].
      exists d, n. rewrite <- Hr, <- Hc.
      split; [done|]. split; [lia|]. by repeat (split; [done|]).
    - intros (d & n & Hd & Hn & Hempty & Hr & Hc & Hland).
      exists (stepMove pos a (r a + n * d.1) (c a + n * d.2)). split.
      + apply in_genSliding. exists d, n. cbn [rayAt r c].
        rewrite <- Hr, <- Hc. split; [done|].
        split; [|split; [done|split; [done|reflexivity]]].
        split; [done|].
        assert (n ≤ 7); [|lia].
        apply (ray_bound a d n); [done|by eapply slidingDeltas_queen|done|].
        unfold insideSquare. cbn [rayAt r c]. rewrite <- Hr, <- Hc.
        apply Hland.
      + cbn [stepMove to r c]. by rewrite Hr, Hc, !Z.eqb_refl. }
  split.
  - intros H. exists p. split; [done|]. split; [done|].
    unfold attackGeometry. unfold pseudoLegalMovesForSquare in H.
    rewrite Hp in H. destruct (type p) eqn:Ht; cbn [bool_decide decide_rel] in H.
    + rewrite bool_decide_eq_false_2 in H by done. by apply Hpush.
    + rewrite bool_decide_eq_false_2 in H by done. apply Hslide; auto.
    + rewrite bool_decide_eq_false_2 in H by done. apply Hslide; auto.
    + rewrite bool_decide_eq_false_2 in H by done. apply Hslide; auto.
    + rewrite bool_decide_eq_false_2 in H by done. by apply Hpush.
    + rewrite bool_decide_eq_true_2 in H by done. cbn [existsb] in H.
      rewrite orb_false_r in H. unfold pawnDir. rewrite Hk.
      apply orb_true_iff in H as [H|H];
        apply andb_true_iff in H as [->%Z.eqb_eq <-%Z.eqb_eq];
        split; auto; lia.
  - intros (p' & [= <-] & _ & H).
    unfold attackGeometry in H. unfold pseudoLegalMovesForSquare.
    rewrite Hp. destruct (type p) eqn:Ht.
    + rewrite bool_decide_eq_false_2 by done. by apply Hpush.
    + rewrite bool_decide_eq_false_2 by done. apply Hslide; auto.
    + rewrite bool_decide_eq_false_2 by done. apply Hslide; auto.
    + rewrite bool_decide_eq_false_2 by done. apply Hslide; auto.
    + rewrite bool_decide_eq_false_2 by done. by apply Hpush.
    + rewrite bool_decide_eq_true_2 by done. cbn [existsb].
      rewrite orb_false_r. unfold pawnDir in H. rewrite Hk in H.
      destruct H as [-> [-> | ->]]; apply orb_true_iff; [left|right];
        apply andb_true_iff; split; apply Z.eqb_eq; lia.
Qed.

Lemma isSquareAttacked_iff pos square byColor :
  wf_position pos →
  isSquareAttacked pos square byColor = true ↔
  ∃ a p, pieceOn pos a = Some p ∧ color p = byColor
         ∧ attackGeometry pos a p (r square) (c square).
Proof.
  intros Hwf. unfold isSquareAttacked. rewrite existsb_exists. split.
  - intros (a & _ & H). apply attacksFrom_iff in H; [|done]. eauto.
  - intros (a & p & Hp & Hk & H). exists a. split.
    + apply in_allSquares. by eapply boardAt_Some_inside.
    + apply attacksFrom_iff; eauto.
Qed.

(** X6: [isSquareAttacked] answers true exactly when some piece of the
    attacking colour stands in attacking geometry to the square: a pawn
    diagonally behind it, a knight or king at one of their offsets, or a
    bishop, rook or queen on a ray with only empty squares in between; for
    every piece but the pawn the square must be on the board and must not
    hold a piece of the attacking colour. *)
Theorem isSquareAttacked_spec (pos : Position) (square : Square)
    (byColor : Color) :
  wf_position pos →
  isSquareAttacked pos square byColor = true ↔
  ∃ a p, pieceOn pos a = Some p ∧ color p = byColor
         ∧ attackGeometry pos a p (r square) (c square).
Proof.
  intros Hwf. unfold isSquareAttacked. rewrite existsb_exists. split.
  - intros (a & _ & H). apply attacksFrom_iff in H; [|done].
    destruct H as (p & Hp & Hk & Hgeo). by exists a, p.
  - intros (a & p & Hp & Hk & Hgeo). exists a. split.
    + apply in_allSquares. by eapply boardAt_Some_inside.
    + apply attacksFrom_iff; [done|]. by exists p.
Qed.

Lemma isSquareAttacked_spec_c3 :
  isSquareAttacked createInitialPosition (mkSquare 5 2) W = true ↔
  ∃ a p, pieceOn createInitialPosition a = Some p ∧ color p = W
         ∧ attackGeometry createInitialPosition a p
             (r (mkSquare 5 2)) (c (mkSquare 5 2)).
Proof.
  apply (isSquareAttacked_spec createInitialPosition (mkSquare 5 2) W).
  exact wf_createInitialPosition.
Defined.

(** X7: a square that holds a piece of the attacking colour is reported as
    attacked only by pawns: every other piece generates no move onto a
    piece of its own colour, so the oracle does not see it as defended. *)
Theorem own_piece_attacked_only_by_pawns (pos : Position) (square : Square)
    (byColor : Color) (q : Piece) :
  wf_position pos →
  pieceOn pos square = Some q → color q = byColor →
  isSquareAttacked pos square byColor = true ↔
  ∃ a, pieceOn pos a = Some (mkPiece byColor Pawn)
       ∧ r square = r a + pawnDir byColor
       ∧ (c square = c a - 1 ∨ c square = c a + 1).
Proof.
  intros Hwf Hq Hk. rewrite (isSquareAttacked_iff _ _ _ Hwf). split.
  - intros (a & p & Hp & Hkp & Hgeo). unfold attackGeometry in Hgeo.
    assert (Hno : ¬ landable pos (color p) (r square) (c square)).
    { intros [_ Hown]. apply (Hown q); [exact Hq|congruence]. }
    destruct p as [k t]. cbn [color type] in *. subst k.
    destruct t; try (by destruct Hgeo as (d & ? & ? & ? & ?));
      try (by destruct Hgeo as (d & n & ? & ? & ? & ? & ? & ?)).
    exists a. by destruct Hgeo.
  - intros (a & Hp & Hr & Hc). exists a, (mkPiece byColor Pawn).
    split; [done|]. split; [done|]. unfold attackGeometry. by cbn [type color].
Qed.

Lemma own_piece_attacked_only_by_pawns_d2 :
  isSquareAttacked createInitialPosition (mkSquare 6 3) W = true ↔
  ∃ a, pieceOn createInitialPosition a = Some (mkPiece W Pawn)
       ∧ r (mkSquare 6 3) = r a + pawnDir W
       ∧ (c (mkSquare 6 3) = c a - 1 ∨ c (mkSquare 6 3) = c a + 1).
Proof.
  apply (own_piece_attacked_only_by_pawns createInitialPosition
           (mkSquare 6 3) W (mkPiece W Pawn)).
  - exact wf_createInitialPosition.
  - reflexivity.
  - reflexivity.
Defined.

Lemma findKing_holds_king pos k sq :
  findKing pos k = Some sq →
  insideSquare sq = true ∧ pieceOn pos sq = Some (mkPiece k King).
Proof.
  intros [Hin Hking]%find_some. split; [by apply in_allSquares|].
  unfold isKingOf in Hking. unfold pieceOn.
  destruct (boardAt pos (r sq) (c sq)) as [[k' t]|]; [|done].
  apply andb_true_iff in Hking as [Hk Ht].
  apply bool_decide_eq_true in Hk, Ht. cbn in Hk, Ht. by subst.
Qed.

Lemma opposite_ne k : opposite k ≠ k.
Proof. by destruct k. Qed.

(** X8: a side is in check exactly when a piece of the other side has a
    pseudo-legal move that ends on the square of its king. *)
Theorem inCheck_iff_king_capturable (pos : Position) (k : Color) :
  wf_position pos →
  inCheck pos k = true ↔
  ∃ kingSq a p m,
    findKing pos k = Some kingSq
    ∧ pieceOn pos a = Some p ∧ color p = opposite k
    ∧ In m (pseudoLegalMovesForSquare pos a)
    ∧ to m = kingSq.
Proof.
  intros Hwf. unfold inCheck.
  destruct (findKing pos k) as [kingSq|] eqn:Hfind;
    [|split; [done|by intros (? & ? & ? & ? & ? & _)]].
  destruct (findKing_holds_king _ _ _ Hfind) as [Hkin Hking].
  unfold isSquareAttacked. rewrite existsb_exists.
  assert (Hsame : ∀ sq : Square,
    (r sq =? r kingSq) && (c sq =? c kingSq) = true ↔ sq = kingSq).
  { intros [i j]. destruct kingSq as [ki kj]. cbn [r c].
    rewrite andb_true_iff, !Z.eqb_eq. split; [by intros [-> ->]|by intros [= -> ->]]. }
  split.
  - intros (a & _ & H). unfold attacksFrom in H.
    destruct (boardAt pos (r a) (c a)) as [p|] eqn:Hp; [|done].
    case_bool_decide as Hk; cbn [negb] in H; [|done].
    exists kingSq, a, p. case_bool_decide as Ht.
    + cbn [existsb] in H. rewrite orb_false_r in H.
      assert (∃ dc, (dc = -1 ∨ dc = 1)
                ∧ kingSq = mkSquare (r a + pawnDir (color p)) (c a + dc))
        as (dc & Hdc & Hsq).
      { unfold pawnDir. rewrite Hk.
        apply orb_true_iff in H as [H|H]; apply (Hsame (mkSquare _ _)) in H;
          eauto. }
      exists (mkMove a (mkSquare (r a + pawnDir (color p)) (c a + dc))
                (promotionAt (r a + pawnDir (color p)))
                (Some (mkPiece k King))).
      split; [done|]. split; [done|]. split; [done|]. split; [|by cbn].
      unfold pseudoLegalMovesForSquare. rewrite Hp, Ht.
      apply in_pawnMoves_iff. right. right. exists dc, (mkPiece k King).
      unfold pieceOn, insideSquare in *. rewrite Hsq in Hkin, Hking.
      cbn [r c color] in *. repeat split; try done.
      rewrite Hk. intros E. by apply (opposite_ne k).
    + apply existsb_exists in H as (m & Hm & Hto). apply Hsame in Hto.
      exists m. by repeat split.
  - intros (kingSq' & a & p & m & [= <-] & Hp & Hk & Hm & Hto).
    exists a. split; [apply in_allSquares; by eapply boardAt_Some_inside|].
    unfold attacksFrom. unfold pieceOn in Hp. rewrite Hp.
    rewrite bool_decide_eq_true_2 by done. cbn [negb].
    case_bool_decide as Ht.
    + unfold pseudoLegalMovesForSquare in Hm. rewrite Hp, Ht in Hm.
      unfold pieceOn in Hking. rewrite <- Hto in Hking.
      apply in_pawnMoves_iff in Hm
        as [(_ & Hq & ->)|[(_ & _ & _ & _ & Hq & ->)
                           |(dc & q & Hdc & _ & _ & _ & ->)]];
        cbn [quietMove to r c] in Hking; try congruence.
      cbn [existsb]. rewrite orb_false_r. rewrite <- Hto. cbn [to r c].
      unfold pawnDir. rewrite Hk.
      destruct Hdc as [-> | ->]; apply orb_true_iff; [left|right];
        by rewrite !Z.eqb_refl.
    + apply existsb_exists. exists m. split; [done|]. by apply Hsame.
Qed.

Lemma inCheck_iff_king_capturable_initial :
  inCheck createInitialPosition W = true ↔
  ∃ kingSq a p m,
    findKing createInitialPosition W = Some kingSq
    ∧ pieceOn createInitialPosition a = Some p ∧ color p = opposite W
    ∧ In m (pseudoLegalMovesForSquare createInitialPosition a)
    ∧ to m = kingSq.
Proof.
  apply (inCheck_iff_king_capturable createInitialPosition W).
  exact wf_createInitialPosition.
Defined.

(** ** The mutator *)

Lemma square_eq_iff (sq sq' : Square) :
  sq = sq' ↔ r sq = r sq' ∧ c sq = c sq'.
Proof.
  destruct sq, sq'. cbn [r c]. split; [by intros [= -> ->]|by intros [-> ->]].
Qed.

(** X9: [applyMove] keeps the shape of the board, puts the moved piece (a queen
    of the same colour for a pawn with the promotion marker, nothing when
    the origin is empty) on the destination, empties the origin unless it
    is the destination, and leaves every other square as it was: whatever
    stood on the destination is gone, whether or not the move says so in
    [captured]. *)
Theorem applyMove_effect (pos : Position) (m : Move) :
  wf_position pos →
  insideSquare (from m) = true → insideSquare (to m) = true →
  wf_position (applyMove pos m)
  ∧ pieceOn (applyMove pos m) (to m) = placedPiece pos m
  ∧ (from m ≠ to m → pieceOn (applyMove pos m) (from m) = None)
  ∧ (∀ sq, sq ≠ from m → sq ≠ to m →
       pieceOn (applyMove pos m) sq = pieceOn pos sq).
Proof.
  intros Hwf Hfrom Hto. split; [by apply wf_applyMove|].
  unfold pieceOn. split; [|split].
  - rewrite boardAt_applyMove by done. by rewrite bool_decide_eq_true_2.
  - intros Hne. rewrite boardAt_applyMove by done.
    rewrite bool_decide_eq_false_2 by (by rewrite <- square_eq_iff).
    by rewrite bool_decide_eq_true_2.
  - intros sq Hnf Hnt. rewrite boardAt_applyMove by done.
    rewrite bool_decide_eq_false_2 by (by rewrite <- square_eq_iff).
    by rewrite bool_decide_eq_false_2 by (by rewrite <- square_eq_iff).
Qed.

Lemma applyMove_effect_e4 :
  let pos := createInitialPosition in
  let m := quietMove (mkSquare 6 4) (mkSquare 4 4) in
  wf_position (applyMove pos m)
  ∧ pieceOn (applyMove pos m) (to m) = placedPiece pos m
  ∧ (from m ≠ to m → pieceOn (applyMove pos m) (from m) = None)
  ∧ (∀ sq, sq ≠ from m → sq ≠ to m →
       pieceOn (applyMove pos m) sq = pieceOn pos sq).
Proof.
  apply (applyMove_effect createInitialPosition).
  - exact wf_createInitialPosition.
  - reflexivity.
  - reflexivity.
Defined.

(** ** Finding the king *)

Lemma find_first {A} (f : A → bool) (l : list A) x :
  find f l = Some x →
  ∃ n, l !! n = Some x
    ∧ ∀ n' y, (n' < n)%nat → l !! n' = Some y → f y = false.
Proof.
  induction l as [|a l IH]; [done|]. simpl.
  destruct (f a) eqn:Hf.
  - intros [= ->]. exists 0%nat. split; [done|]. intros; lia.
  - intros (n & Hn & Hfirst)%IH. exists (S n). split; [done|].
    intros [|n'] y Hlt Hy; simpl in Hy; [by simplify_eq|].
    eapply Hfirst; [|done]. lia.
Qed.

Lemma allSquares_lookup sq :
  insideSquare sq = true →
  allSquares !! Z.to_nat (8 * r sq + c sq) = Some sq.
Proof.
  destruct sq as [i j]. unfold insideSquare. cbn [r c].
  intros [Hi Hj]%inside_spec. each_index Hi; each_index Hj; reflexivity.
Qed.

Lemma allSquares_NoDup : NoDup allSquares.
Proof. apply (bool_decide_unpack _). vm_compute. exact I. Qed.

Lemma board_cell_boardAt pos row cell :
  wf_position pos → In row (board pos) → In cell row →
  ∃ sq, insideSquare sq = true ∧ boardAt pos (r sq) (c sq) = cell.
Proof.
  intros [Hlen Hrows] Hrow Hcell.
  assert (Hr : length row = 8%nat).
  { rewrite Forall_forall in Hrows. apply Hrows. by apply list_elem_of_In. }
  apply list_elem_of_In, list_elem_of_lookup in Hrow as [i Hi].
  apply list_elem_of_In, list_elem_of_lookup in Hcell as [j Hj].
  pose proof (lookup_lt_Some _ _ _ Hi). pose proof (lookup_lt_Some _ _ _ Hj).
  exists (mkSquare (Z.of_nat i) (Z.of_nat j)). unfold insideSquare. cbn [r c].
  split; [apply inside_spec; lia|].
  unfold boardAt, zlookup.
  destruct (Z.leb_spec 0 (Z.of_nat i)); [|lia]. rewrite Nat2Z.id, Hi.
  destruct (Z.leb_spec 0 (Z.of_nat j)); [|lia]. by rewrite Nat2Z.id, Hj.
Qed.

(** X10: [findKing] returns a square of the board that holds the king of the
    colour asked for, the first one in the order of rows and then columns
    when there are several, and returns null exactly when no cell of the
    board holds such a king. *)
Theorem findKing_spec (pos : Position) (k : Color) :
  wf_position pos →
  (∀ sq, findKing pos k = Some sq →
     insideSquare sq = true
     ∧ pieceOn pos sq = Some (mkPiece k King)
     ∧ ∀ sq', pieceOn pos sq' = Some (mkPiece k King) →
         r sq < r sq' ∨ (r sq = r sq' ∧ c sq ≤ c sq'))
  ∧ (findKing pos k = None ↔ noKing pos k).
Proof.
  intros Hwf. split.
  - intros sq Hfind. destruct (findKing_holds_king _ _ _ Hfind) as [Hin Hking].
    split; [done|]. split; [done|]. intros sq' Hking'.
    assert (Hin' : insideSquare sq' = true) by (by eapply boardAt_Some_inside).
    apply find_first in Hfind as (n & Hn & Hfirst).
    assert (n = Z.to_nat (8 * r sq + c sq)) as ->.
    { eapply NoDup_lookup; [apply allSquares_NoDup|exact Hn|].
      by apply allSquares_lookup. }
    destruct (decide (Z.to_nat (8 * r sq' + c sq') < Z.to_nat (8 * r sq + c sq))%nat)
      as [Hlt|Hge].
    + specialize (Hfirst _ sq' Hlt (allSquares_lookup _ Hin')).
      unfold isKingOf in Hfirst. unfold pieceOn in Hking'.
      rewrite Hking' in Hfirst. cbn in Hfirst.
      by rewrite !bool_decide_eq_true_2 in Hfirst.
    + apply inside_spec in Hin, Hin'. lia.
  - split; [|apply findKing_noKing].
    intros Hnone. unfold noKing.
    apply Forall_forall. intros row Hrow%list_elem_of_In.
    apply Forall_forall. intros cell Hcell%list_elem_of_In ->.
    destruct (board_cell_boardAt _ _ _ Hwf Hrow Hcell) as (sq & Hin & Hsq).
    pose proof (find_none _ _ Hnone sq (proj2 (in_allSquares sq) Hin)) as Hf.
    unfold isKingOf in Hf. rewrite Hsq in Hf. cbn in Hf.
    by rewrite !bool_decide_eq_true_2 in Hf.
Qed.

Lemma findKing_spec_initial :
  (∀ sq, findKing createInitialPosition W = Some sq →
     insideSquare sq = true
     ∧ pieceOn createInitialPosition sq = Some (mkPiece W King)
     ∧ ∀ sq', pieceOn createInitialPosition sq' = Some (mkPiece W King) →
         r sq < r sq' ∨ (r sq = r sq' ∧ c sq ≤ c sq'))
  ∧ (findKing createInitialPosition W = None ↔ noKing createInitialPosition W).
Proof.
  apply (findKing_spec createInitialPosition W).
  exact wf_createInitialPosition.
Defined.

(** ** Kings keep their distance *)

(** X11: when the side to move has a single king, no legal move of that king ends
    on a square next to a king of the other side: the generator has no rule
    about neighbouring kings, the check filter excludes these moves. *)
Theorem king_never_steps_next_to_king (pos : Position) (turn : Color)
    (m : Move) (e : Square) :
  wf_position pos →
  In m (generateLegalMoves pos turn) →
  pieceOn pos (from m) = Some (mkPiece turn King) →
  (∀ sq, pieceOn pos sq = Some (mkPiece turn King) → sq = from m) →
  pieceOn pos e = Some (mkPiece (opposite turn) King) →
  ¬ jumpShape King (r (to m) - r e) (c (to m) - c e).
Proof.
  intros Hwf Hm Hking Hone He Hjump.
  apply in_generateLegalMoves in Hm as (sq & p & _ & Hp & _ & Hm & Hsafe).
  destruct (in_pseudoLegal_facts _ _ _ _ Hp Hm) as (Hfrom & [Hto _] & _ & _).
  subst sq. unfold pieceOn in Hking. rewrite Hking in Hp. injection Hp as <-.
  assert (Hfin : insideSquare (from m) = true) by (by eapply boardAt_Some_inside).
  pose proof (wf_applyMove _ m Hwf) as Hwf'.
  assert (Hplaced : placedPiece pos m = Some (mkPiece turn King)).
  { unfold placedPiece. by rewrite Hking. }
  assert (Hnext : findKing (applyMove pos m) turn = Some (to m)).
  { destruct (findKing (applyMove pos m) turn) as [sq|] eqn:Hfind.
    - f_equal. apply findKing_holds_king in Hfind as [_ Hsq].
      unfold pieceOn in Hsq. rewrite boardAt_applyMove in Hsq by done.
      case_bool_decide as Ht; [by apply square_eq_iff|].
      case_bool_decide as Hf; [done|].
      exfalso. apply Hf. apply square_eq_iff. by apply Hone.
    - pose proof (find_none _ _ Hfind (to m) (proj2 (in_allSquares _) Hto)) as Hf.
      unfold isKingOf in Hf. rewrite boardAt_applyMove in Hf by done.
      rewrite bool_decide_eq_true_2 in Hf by done. rewrite Hplaced in Hf.
      cbn in Hf. by rewrite !bool_decide_eq_true_2 in Hf. }
  unfold wouldLeaveKingInCheck, inCheck in Hsafe. rewrite Hnext in Hsafe.
  assert (Hatt : isSquareAttacked (applyMove pos m) (to m) (opposite turn) = true);
    [|congruence].
  apply isSquareAttacked_iff; [done|].
  exists e, (mkPiece (opposite turn) King).
  assert (He' : pieceOn (applyMove pos m) e = Some (mkPiece (opposite turn) King)).
  { unfold pieceOn. rewrite boardAt_applyMove by done.
    rewrite bool_decide_eq_false_2.
    - rewrite bool_decide_eq_false_2; [done|].
      intros Heq%square_eq_iff. subst e. unfold pieceOn in He.
      rewrite Hking in He. injection He as He. by apply (opposite_ne turn).
    - intros [Hr Hc]. unfold jumpShape in Hjump. lia. }
  split; [done|]. split; [done|]. unfold attackGeometry. cbn [type color].
  exists (r (to m) - r e, c (to m) - c e). cbn [fst snd].
  split; [by apply (jump_deltas King); [right|]|].
  split; [lia|]. split; [lia|]. split; [done|].
  intros q. rewrite boardAt_applyMove by done.
  rewrite bool_decide_eq_true_2 by done. rewrite Hplaced.
  intros [= <-]. cbn. intros E. by apply (opposite_ne turn).
Qed.

Lemma king_never_steps_next_to_king_corner :
  let pos := mkPosition
    (boardSet (boardSet emptyBoard 0 0 (Some (mkPiece B King)))
              2 2 (Some (mkPiece W King))) in
  let m := quietMove (mkSquare 0 0) (mkSquare 0 1) in
  ¬ jumpShape King (r (to m) - r (mkSquare 2 2)) (c (to m) - c (mkSquare 2 2)).
Proof.
  apply (king_never_steps_next_to_king
           (mkPosition
              (boardSet (boardSet emptyBoard 0 0 (Some (mkPiece B King)))
                        2 2 (Some (mkPiece W King))))
           B (quietMove (mkSquare 0 0) (mkSquare 0 1)) (mkSquare 2 2)).
  - split; [reflexivity|]. vm_compute. repeat constructor.
  - vm_compute. tauto.
  - reflexivity.
  - intros [i j] H.
    assert (Hin : inside i j = true).
    { eapply boardAt_Some_inside; [|exact H].
      split; [reflexivity|]. vm_compute. repeat constructor. }
    apply inside_spec in Hin as [Hi Hj].
    each_index Hi; each_index Hj; first [reflexivity | discriminate H].
  - reflexivity.
Defined.

(** ** Termination of the sliding loop *)

Lemma slide_fuel_enough_example :
  slide 100 createInitialPosition (mkSquare 7 3) W (-1) 1 6 4
  = slide slideFuel createInitialPosition (mkSquare 7 3) W (-1) 1 6 4.
Proof.
  apply (slide_fuel_enough 100 createInitialPosition (mkSquare 7 3) W (-1) 1 6 4).
  - discriminate.
  - unfold slideFuel. lia.
Defined.

(** ** Parsing squares *)

Lemma indexOfFrom_spec a key i col :
  indexOfFrom a key i = col →
  col = -1 ∨ ∃ n : nat, (n < length a)%nat ∧ col = i + Z.of_nat n ∧ a !! n = key.
Proof.
  revert i. induction a as [|x a IH]; intros i; simpl; [by left|].
  case_bool_decide as E.
  - intros <-. right. exists 0%nat. split; [lia|]. split; [lia|]. by rewrite E.
  - intros [->|(n & Hn & -> & Hkey)]%IH; [by left|].
    right. exists (S n). split; [lia|]. split; [lia|done].
Qed.

Lemma indexOf_FILES key col :
  indexOf FILES key = col →
  col = -1 ∨ (0 ≤ col < 8 ∧ zlookup FILES col = key).
Proof.
  intros [->|(n & Hn & -> & Hkey)]%indexOfFrom_spec; [by left|].
  right. change (length FILES) with 8%nat in Hn. split; [lia|].
  unfold zlookup. destruct (Z.leb_spec 0 (0 + Z.of_nat n)); [|lia].
  by replace (Z.to_nat (0 + Z.of_nat n)) with n by lia.
Qed.

Lemma Number_digit ch rank :
  Number (Some (String ch EmptyString)) = Some rank →
  0 ≤ rank ≤ 9
  ∧ (1 ≤ rank ≤ 8 → numberToString rank = String ch EmptyString).
Proof.
  unfold Number.
  destruct ((48 <=? Z.of_nat (nat_of_ascii ch))
            && (Z.of_nat (nat_of_ascii ch) <=? 57)) eqn:Hd.
  - intros [= <-]. apply andb_true_iff in Hd as [H1%Z.leb_le H2%Z.leb_le].
    split; [lia|]. intros Hr.
    assert (Hn : (nat_of_ascii ch = 49 ∨ nat_of_ascii ch = 50
                  ∨ nat_of_ascii ch = 51 ∨ nat_of_ascii ch = 52
                  ∨ nat_of_ascii ch = 53 ∨ nat_of_ascii ch = 54
                  ∨ nat_of_ascii ch = 55 ∨ nat_of_ascii ch = 56)%nat) by lia.
    rewrite <- (ascii_nat_embedding ch).
    destruct Hn as [->|[->|[->|[->|[->|[->|[->| ->]]]]]]]; reflexivity.
  - destruct (isStrWhiteSpace ch); [|done]. intros [= <-]. split; lia.
Qed.

(** X13: when [parseSquare] returns a square of the board, the string starts
    with the algebraic name of that square; whatever follows the first two
    characters is ignored. *)
Theorem parseSquare_inside_prefix (s : string) (sq : Square) :
  parseSquare s = Some sq → insideSquare sq = true →
  ∃ rest, s = squareToAlgebraic sq +:+ rest.
Proof.
  unfold parseSquare, insideSquare.
  destruct s as [|a [|b rest]]; [done|done|].
  change (charAt (String a (String b rest)) 0) with (Some (String a EmptyString)).
  change (charAt (String a (String b rest)) 1) with (Some (String b EmptyString)).
  destruct (Number (Some (String b EmptyString))) as [rank|] eqn:Hrank; [|done].
  intros [= <-]. cbn [r c]. intros [Hr Hc]%inside_spec.
  destruct (Number_digit _ _ Hrank) as [_ Hdigit].
  destruct (indexOf_FILES (Some (String a EmptyString)) _ eq_refl)
    as [Hcol|[_ Hcol]]; [lia|].
  exists rest. unfold squareToAlgebraic. cbn [r c]. rewrite Hcol.
  replace (8 - (8 - rank)) with rank by lia. rewrite Hdigit by lia.
  reflexivity.
Qed.

Lemma parseSquare_inside_prefix_e4 :
  ∃ rest, "e4+"%string = squareToAlgebraic (mkSquare 4 4) +:+ rest.
Proof.
  apply (parseSquare_inside_prefix "e4+" (mkSquare 4 4)).
  - reflexivity.
  - reflexivity.
Defined.

(** X14: [parseSquare] yields a row that is not a number for a string of fewer
    than two characters; otherwise the column it returns is -1 (a first
    character that is not a file letter) or one of 0..7, and the row lies
    between -1 and 8. *)
Theorem parseSquare_range (s : string) (sq : Square) :
  parseSquare s = Some sq →
  (2 ≤ String.length s)%nat ∧ -1 ≤ c sq < 8 ∧ -1 ≤ r sq ≤ 8.
Proof.
  unfold parseSquare.
  destruct s as [|a [|b rest]]; [done|done|].
  change (charAt (String a (String b rest)) 1) with (Some (String b EmptyString)).
  destruct (Number (Some (String b EmptyString))) as [rank|] eqn:Hrank; [|done].
  intros [= <-]. cbn [r c String.length].
  destruct (Number_digit _ _ Hrank) as [Hr _].
  destruct (indexOf_FILES (charAt (String a (String b rest)) 0) _ eq_refl)
    as [Hcol|[Hcol _]]; lia.
Qed.

Lemma parseSquare_range_z9 :
  (2 ≤ String.length "z9")%nat
  ∧ -1 ≤ c (mkSquare (-1) (-1)) < 8 ∧ -1 ≤ r (mkSquare (-1) (-1)) ≤ 8.
Proof.
  apply (parseSquare_range "z9" (mkSquare (-1) (-1))). reflexivity.
Defined.

(** ** No move is generated twice *)

Lemma NoDup_flat_map {A B} (f : A → list B) (l : list A) :
  NoDup l →
  (∀ x, In x l → NoDup (f x)) →
  (∀ x y z, In x l → In y l → In z (f x) → In z (f y) → x = y) →
  NoDup (flat_map f l).
Proof.
  induction 1 as [|x l Hx Hl IH]; intros Hf Hdis; simpl; [constructor|].
  apply NoDup_app. split; [apply Hf; by left|]. split.
  - intros z Hz%list_elem_of_In (y & Hy & Hzy)%list_elem_of_In%in_flat_map.
    apply Hx. apply list_elem_of_In.
    by rewrite (Hdis x y z) by (simpl; auto).
  - apply IH.
    + intros y Hy. apply Hf. by right.
    + intros y y' z Hy Hy'. apply Hdis; by right.
Qed.

Lemma NoDup_List_filter {A} (f : A → bool) (l : list A) :
  NoDup l → NoDup (List.filter f l).
Proof.
  induction 1 as [|x l Hx Hl IH]; simpl; [constructor|].
  destruct (f x); [|done]. constructor; [|done].
  intros [Hin _]%list_elem_of_In%filter_In. by apply Hx, list_elem_of_In.
Qed.

Lemma pushIfValid_app moves pos sq i j k :
  pushIfValid moves pos sq i j k = moves ++ pushIfValid [] pos sq i j k.
Proof.
  unfold pushIfValid. destruct (negb (inside i j)); [by rewrite app_nil_r|].
  destruct (boardAt pos i j) as [q|]; [|done].
  destruct (negb (bool_decide (color q = k))); [done|by rewrite app_nil_r].
Qed.

Lemma pushDeltas_flat_map pos sq k deltas :
  pushDeltas pos sq k deltas
  = flat_map (λ d, pushIfValid [] pos sq (r sq + d.1) (c sq + d.2) k) deltas.
Proof.
  unfold pushDeltas.
  assert (H : ∀ acc,
    fold_left (λ moves d, pushIfValid moves pos sq (r sq + d.1) (c sq + d.2) k)
              deltas acc
    = acc ++ flat_map (λ d, pushIfValid [] pos sq (r sq + d.1) (c sq + d.2) k)
                      deltas).
  { induction deltas as [|d deltas IH]; intros acc; simpl.
    - by rewrite app_nil_r.
    - by rewrite IH, pushIfValid_app, <- app_assoc. }
  apply (H []).
Qed.

Lemma NoDup_pushDeltas pos sq k deltas :
  NoDup deltas → NoDup (pushDeltas pos sq k deltas).
Proof.
  intros Hdeltas. rewrite pushDeltas_flat_map. apply NoDup_flat_map; [done| |].
  - intros d _. unfold pushIfValid. destruct (negb _); [constructor|].
    destruct (boardAt _ _ _); [destruct (negb _)|];
      simpl; repeat constructor; by intros ?%elem_of_nil.
  - intros [dr dc] [dr' dc'] z _ _ Hz Hz'.
    apply in_pushIfValid in Hz as [[]|[_ ->]].
    apply in_pushIfValid in Hz' as [[]|[_ Heq]].
    unfold stepMove in Heq. cbn [fst snd] in Heq.
    injection Heq as Hr Hc _. f_equal; lia.
Qed.

Lemma NoDup_slide fuel pos sq k dr dc i j :
  (dr, dc) ≠ (0, 0) → NoDup (slide fuel pos sq k dr dc i j).
Proof.
  intros Hd. revert i j. induction fuel as [|fuel IH]; intros i j; simpl;
    [constructor|].
  destruct (inside i j); [|constructor].
  destruct (boardAt pos i j) as [q|].
  - destruct (negb _); repeat constructor. by intros ?%elem_of_nil.
  - constructor; [|apply IH].
    intros (n & _ & _ & _ & Heq)%list_elem_of_In%in_slide.
    unfold quietMove, stepMove in Heq. injection Heq as Hr Hc _.
    apply Hd. f_equal; nia.
Qed.

Lemma NoDup_genSliding pos sq k deltas :
  NoDup deltas → (∀ d, In d deltas → In d queenDeltas) →
  NoDup (genSliding pos sq k deltas).
Proof.
  intros Hdeltas Hsub. unfold genSliding. apply NoDup_flat_map; [done| |].
  - intros d Hd. apply NoDup_slide. apply Hsub in Hd.
    unfold queenDeltas in Hd. simpl in Hd.
    repeat (destruct Hd as [<-|Hd]; [done|]). done.
  - intros d d' z Hd Hd' (n & _ & _ & _ & ->)%in_slide
                         (n' & _ & _ & _ & Heq)%in_slide.
    unfold stepMove in Heq. injection Heq as Hr Hc _.
    apply (ray_unique d d' (Z.of_nat n + 1) (Z.of_nat n' + 1));
      [by apply Hsub|by apply Hsub|lia|lia|lia|lia].
Qed.

Ltac distinct_moves :=
  repeat first
    [ apply NoDup_nil_2
    | apply NoDup_cons_2;
      [ let H := fresh in
        intros H;
        repeat (apply elem_of_cons in H as [H|H]; [injection H; intros; lia|]);
        by apply elem_of_nil in H
      | ] ].

Lemma NoDup_pawnMoves pos sq k : NoDup (pawnMoves pos sq k).
Proof.
  unfold pawnMoves, quietMove. cbv zeta. cbn [flat_map].
  destruct k; cbn [bool_decide decide_rel];
    repeat match goal with
           | |- context [if ?b then _ else _] => destruct b
           end;
    cbn [app]; distinct_moves.
Qed.

Lemma NoDup_pseudoLegal pos sq : NoDup (pseudoLegalMovesForSquare pos sq).
Proof.
  unfold pseudoLegalMovesForSquare.
  destruct (boardAt pos (r sq) (c sq)) as [p|]; [|constructor].
  assert (Hq : NoDup queenDeltas)
    by (apply (bool_decide_unpack _); vm_compute; exact I).
  destruct (type p).
  - apply NoDup_pushDeltas. apply (bool_decide_unpack _). vm_compute. exact I.
  - by apply NoDup_genSliding.
  - apply NoDup_genSliding.
    + apply (bool_decide_unpack _). vm_compute. exact I.
    + apply (slidingDeltas_queen Rook).
  - apply NoDup_genSliding.
    + apply (bool_decide_unpack _). vm_compute. exact I.
    + apply (slidingDeltas_queen Bishop).
  - apply NoDup_pushDeltas. apply (bool_decide_unpack _). vm_compute. exact I.
  - apply NoDup_pawnMoves.
Qed.

(** X15: the list of legal moves holds no move twice. *)
Theorem generateLegalMoves_NoDup (pos : Position) (turn : Color) :
  wf_position pos → NoDup (generateLegalMoves pos turn).
Proof.
  intros _. unfold generateLegalMoves.
  apply NoDup_flat_map; [apply allSquares_NoDup| |].
  - intros sq _. unfold legalFrom.
    destruct (boardAt pos (r sq) (c sq)); [|constructor].
    destruct (negb _); [constructor|].
    apply NoDup_List_filter, NoDup_pseudoLegal.
  - assert (Hfrom : ∀ sq m, In m (legalFrom pos turn sq) → from m = sq).
    { intros sq m. unfold legalFrom.
      destruct (boardAt pos (r sq) (c sq)); [|done].
      destruct (negb _); [done|].
      intros [Hm _]%filter_In. by apply in_pseudoLegal in Hm as [? _]. }
    intros sq sq' m _ _ Hm Hm'.
    apply Hfrom in Hm, Hm'. congruence.
Qed.

Lemma generateLegalMoves_NoDup_initial :
  NoDup (generateLegalMoves createInitialPosition W).
Proof.
  apply (generateLegalMoves_NoDup createInitialPosition W).
  exact wf_createInitialPosition.
Defined.

(** * Further properties of the store model *)

Lemma cloneCell_fresh σ cell cell' σ' :
  Heap.cloneCell cell σ = Some (cell', σ') →
  σ `prefix_of` σ' ∧ Heap.freshCell (length σ) cell'.
Proof.
  destruct cell as [l|]; simpl.
  - unfold Heap.getPiece, Heap.load. rewrite !bind_run.
    destruct (σ !! l) as [[pc| | |]|]; try done. simpl.
    intros [= <- <-]. split; [apply prefix_alloc|]. by intros ? [= <-].
  - intros [= <- <-]. split; [done|]. by intros ? [=].
Qed.

Lemma cloneCells_fresh σ cells cells' σ' :
  mapM Heap.cloneCell cells σ = Some (cells', σ') →
  σ `prefix_of` σ' ∧ Forall (Heap.freshCell (length σ)) cells'.
Proof.
  revert σ cells'. induction cells as [|cell cells IH]; intros σ cells'.
  - intros [= <- <-]. split; [done|constructor].
  - rewrite mapM_cons_run.
    destruct (Heap.cloneCell cell σ) as [[cell1 σ1]|] eqn:E1; [|done].
    destruct (mapM Heap.cloneCell cells σ1) as [[cells1 σ2]|] eqn:E2; [|done].
    intros [= <- <-].
    apply cloneCell_fresh in E1 as [Hpre1 Hf1]. apply IH in E2 as [Hpre2 Hf2].
    split; [by etrans|]. constructor; [done|].
    eapply Forall_impl; [exact Hf2|]. intros c Hc l Hl.
    apply prefix_length in Hpre1. specialize (Hc l Hl). lia.
Qed.

Lemma cloneRow_fresh σ row row' σ' :
  Heap.cloneRow row σ = Some (row', σ') →
  σ `prefix_of` σ' ∧ Heap.freshRow (length σ) σ' row'.
Proof.
  unfold Heap.cloneRow, Heap.getCells, Heap.load. rewrite !bind_run.
  destruct (σ !! row) as [[|cells| |]|]; try done. simpl. rewrite bind_run.
  destruct (mapM Heap.cloneCell cells σ) as [[cells' σ1]|] eqn:E; [|done].
  unfold Heap.alloc. intros [= <- <-].
  apply cloneCells_fresh in E as [Hpre Hfresh].
  pose proof (prefix_length _ _ Hpre).
  split; [etrans; [exact Hpre|apply prefix_alloc]|]. split; [done|].
  exists cells'. split; [|done].
  rewrite lookup_app_r by done. by rewrite Nat.sub_diag.
Qed.

Lemma freshRow_prefix n n' σ σ' row :
  (n' ≤ n)%nat → σ `prefix_of` σ' →
  Heap.freshRow n σ row → Heap.freshRow n' σ' row.
Proof.
  intros Hn Hpre [Hrow (cells & Hcells & Hfresh)]. split; [lia|].
  exists cells. split; [by eapply prefix_lookup|].
  eapply Forall_impl; [exact Hfresh|]. intros c Hc l Hl.
  specialize (Hc l Hl). lia.
Qed.

Lemma cloneRows_fresh σ rows rows' σ' :
  mapM Heap.cloneRow rows σ = Some (rows', σ') →
  σ `prefix_of` σ' ∧ Forall (Heap.freshRow (length σ) σ') rows'.
Proof.
  revert σ rows'. induction rows as [|row rows IH]; intros σ rows'.
  - intros [= <- <-]. split; [done|constructor].
  - rewrite mapM_cons_run.
    destruct (Heap.cloneRow row σ) as [[row1 σ1]|] eqn:E1; [|done].
    destruct (mapM Heap.cloneRow rows σ1) as [[rows1 σ2]|] eqn:E2; [|done].
    intros [= <- <-].
    apply cloneRow_fresh in E1 as [Hpre1 Hf1]. apply IH in E2 as [Hpre2 Hf2].
    pose proof (prefix_length _ _ Hpre1).
    split; [by etrans|]. constructor.
    + by apply (freshRow_prefix (length σ) (length σ) σ1 σ2).
    + eapply Forall_impl; [exact Hf2|]. intros r' Hr'.
      by apply (freshRow_prefix (length σ1) (length σ) σ2 σ2).
Qed.

(** X16: [clonePosition] is a deep copy: it returns a position object with the
    board of its argument, every object of which (the position, its board
    array, the rows and the pieces) was allocated by the call, and it
    changes no object that existed before. *)
Theorem clonePosition_deep_copy (σ : Heap.store) (p : Heap.loc)
    (pos : Position) :
  Heap.snapshot σ p = Some pos →
  ∃ p' b' rows' σ',
    Heap.clonePosition p σ = Some (p', σ')
    ∧ σ `prefix_of` σ'
    ∧ Heap.snapshot σ' p' = Some pos
    ∧ Heap.snapshot σ' p = Some pos
    ∧ σ' !! p' = Some (Heap.OPosition b')
    ∧ σ' !! b' = Some (Heap.OBoard rows')
    ∧ (length σ ≤ p')%nat ∧ (length σ ≤ b')%nat
    ∧ NoDup rows'
    ∧ Forall (Heap.freshRow (length σ) σ') rows'.
Proof.
  intros Hsnap. pose proof Hsnap as Hsnap0. unfold Heap.snapshot in Hsnap.
  destruct (σ !! p) as [[| | |b]|] eqn:Ep; try done.
  destruct (σ !! b) as [[| |rows|]|] eqn:Eb; try done.
  destruct (mapM (Heap.snapRow σ) rows) as [brd|] eqn:Er; [|done].
  injection Hsnap as <-.
  destruct (cloneRows_spec _ _ _ Er)
    as (rows' & σ1 & Hrun & Hpre & Hrows & _ & Hnodup).
  destruct (cloneRows_fresh _ _ _ _ Hrun) as [_ Hfresh].
  pose proof (prefix_length _ _ Hpre) as Hlen.
  set (σ' := (σ1 ++ [Heap.OBoard rows']) ++ [Heap.OPosition (length σ1)]).
  assert (Hpre' : σ1 `prefix_of` σ') by (unfold σ'; rewrite <- app_assoc; by eexists).
  assert (Hp' : σ' !! S (length σ1) = Some (Heap.OPosition (length σ1))).
  { unfold σ'. rewrite lookup_app_r by (rewrite length_app; simpl; lia).
    rewrite length_app. simpl.
    by replace (S (length σ1) - (length σ1 + 1))%nat with 0%nat by lia. }
  assert (Hb' : σ' !! length σ1 = Some (Heap.OBoard rows')).
  { unfold σ'. rewrite lookup_app_l by (rewrite length_app; simpl; lia).
    rewrite lookup_app_r by done. by rewrite Nat.sub_diag. }
  exists (S (length σ1)), (length σ1), rows', σ'.
  split; [|split; [by etrans|split; [|split; [|repeat split; try done; try lia]]]].
  - unfold Heap.clonePosition, Heap.getBoard, Heap.getRows, Heap.load.
    rewrite !bind_run, Ep. simpl. rewrite !bind_run, Eb. simpl.
    rewrite !bind_run, Hrun. simpl. unfold Heap.alloc. rewrite bind_run.
    rewrite length_app. simpl. by rewrite Nat.add_1_r.
  - unfold Heap.snapshot. rewrite Hp', Hb'.
    by rewrite (snapRows_prefix _ _ _ _ Hpre' Hrows).
  - eapply snapshot_prefix; [|exact Hsnap0]. by etrans.
  - eapply Forall_impl; [exact Hfresh|]. intros r' Hr'.
    by apply (freshRow_prefix (length σ) (length σ) σ1 σ').
Qed.

Lemma clonePosition_deep_copy_initial :
  ∃ p' b' rows' σ',
    Heap.clonePosition Heap.initialStore.1 Heap.initialStore.2 = Some (p', σ')
    ∧ Heap.initialStore.2 `prefix_of` σ'
    ∧ Heap.snapshot σ' p' = Some createInitialPosition
    ∧ Heap.snapshot σ' Heap.initialStore.1 = Some createInitialPosition
    ∧ σ' !! p' = Some (Heap.OPosition b')
    ∧ σ' !! b' = Some (Heap.OBoard rows')
    ∧ (length Heap.initialStore.2 ≤ p')%nat
    ∧ (length Heap.initialStore.2 ≤ b')%nat
    ∧ NoDup rows'
    ∧ Forall (Heap.freshRow (length Heap.initialStore.2) σ') rows'.
Proof.
  apply (clonePosition_deep_copy Heap.initialStore.2 Heap.initialStore.1
           createInitialPosition).
  vm_compute. reflexivity.
Defined.

(** * Properties of the component *)

Lemma Played_wf pos t : Played pos t → wf_position pos.
Proof.
  induction 1; [exact wf_createInitialPosition|by apply wf_applyMove].
Qed.

Lemma noMoves_flags (noMoves chk : bool) :
  noMoves && chk || noMoves && negb chk = noMoves.
Proof. by destruct noMoves, chk. Qed.

Lemma statusEffect_fields s :
  App.position (App.statusEffect s) = App.position s
  ∧ App.turn (App.statusEffect s) = App.turn s
  ∧ App.moveHistory (App.statusEffect s) = App.moveHistory s
  ∧ App.status (App.statusEffect s)
    = App.mkStatus
        (inCheck (App.position s) (App.turn s))
        (bool_decide (length (App.allLegalMoves s) = 0%nat)
         && inCheck (App.position s) (App.turn s))
        (bool_decide (length (App.allLegalMoves s) = 0%nat)
         && negb (inCheck (App.position s) (App.turn s)))
  ∧ (App.allLegalMoves s = [] →
       App.selected (App.statusEffect s) = None
       ∧ App.legalMovesFromSelected (App.statusEffect s) = [])
  ∧ (App.allLegalMoves s ≠ [] →
       App.selected (App.statusEffect s) = App.selected s
       ∧ App.legalMovesFromSelected (App.statusEffect s)
         = App.legalMovesFromSelected s).
Proof.
  unfold App.statusEffect. cbv zeta. rewrite noMoves_flags.
  destruct (App.allLegalMoves s) as [|m0 l] eqn:E.
  - rewrite !bool_decide_eq_true_2 by done.
    cbn [App.position App.turn App.moveHistory App.status App.selected
         App.legalMovesFromSelected]. by repeat split.
  - rewrite !bool_decide_eq_false_2 by done.
    cbn [App.position App.turn App.moveHistory App.status App.selected
         App.legalMovesFromSelected]. by repeat split.
Qed.

(** The effect establishes the invariant from its part that the handlers
    keep. *)
Lemma statusEffect_invariant s :
  Played (App.position s) (App.turn s) →
  App.turn s = (if Nat.even (length (App.moveHistory s)) then W else B) →
  (∀ m, In m (App.legalMovesFromSelected s) →
     In m (App.allLegalMoves s) ∧ App.selected s = Some (from m)) →
  stateInvariant (App.statusEffect s).
Proof.
  intros Hplayed Hparity Hlegal.
  destruct (statusEffect_fields s) as (Hp & Ht & Hh & Hst & Hnone & Hsome).
  assert (Hall : App.allLegalMoves (App.statusEffect s) = App.allLegalMoves s)
    by (unfold App.allLegalMoves; by rewrite Hp, Ht).
  unfold stateInvariant. rewrite Hall, Hp, Ht, Hh.
  split; [done|]. split; [done|]. split; [|split; [|done]].
  - destruct (statusEffect_fields (App.statusEffect s)) as (_ & _ & _ & -> & _).
    by rewrite Hall, Hp, Ht.
  - intros m Hm. destruct (App.allLegalMoves s) as [|m0 l] eqn:E.
    + destruct Hnone as [_ Hl]; [done|]. by rewrite Hl in Hm.
    + destruct Hsome as [Hsel Hl]; [done|]. rewrite Hl in Hm. rewrite Hsel.
      by apply Hlegal.
Qed.

Lemma existsb_find {A} (f : A → bool) (l : list A) :
  existsb f l = true → ∃ x, find f l = Some x.
Proof.
  induction l as [|a l IH]; simpl; [done|].
  destruct (f a); [eauto|]. exact IH.
Qed.

Lemma toggle_opposite t : (if bool_decide (t = W) then B else W) = opposite t.
Proof. reflexivity. Qed.

Lemma parity_step (h : list string) san t :
  t = (if Nat.even (length h) then W else B) →
  opposite t = (if Nat.even (length (h ++ [san])) then W else B).
Proof.
  intros ->. rewrite length_app, Nat.add_1_r, Nat.even_succ.
  rewrite <- Nat.negb_even. by destruct (Nat.even (length h)).
Qed.

(** What a click does, on the state the handler leaves. *)
Lemma handleSquareClick_cases s i j :
  stateInvariant s →
  (∃ m, App.isLegalDestination s i j = true
     ∧ In m (App.allLegalMoves s)
     ∧ App.selected s = Some (from m) ∧ to m = mkSquare i j
     ∧ App.handleSquareClick i j s
       = App.mkState (applyMove (App.position s) m) (opposite (App.turn s))
           None []
           (App.moveHistory s ++ [moveToSANLike (App.position s) m])
           (App.status s))
  ∨ (App.isLegalDestination s i j = false
     ∧ App.position (App.handleSquareClick i j s) = App.position s
     ∧ App.turn (App.handleSquareClick i j s) = App.turn s
     ∧ App.moveHistory (App.handleSquareClick i j s) = App.moveHistory s
     ∧ ∀ m, In m (App.legalMovesFromSelected (App.handleSquareClick i j s)) →
         In m (App.allLegalMoves s)
         ∧ App.selected (App.handleSquareClick i j s) = Some (from m)).
Proof.
  intros (Hplayed & Hparity & Hstatus & Hlegal & Hover).
  unfold App.handleSquareClick.
  destruct (statusEffect_fields s) as (_ & _ & _ & Hst & _).
  rewrite Hstatus, Hst. cbn [App.checkmated App.stalemated].
  rewrite noMoves_flags.
  assert (Hselect : ∀ m,
    In m (App.legalMovesFromSelected (App.select s i j)) →
    In m (App.allLegalMoves s)
    ∧ App.selected (App.select s i j) = Some (from m)).
  { intros m [Hm Hf]%filter_In. split; [done|]. cbn. f_equal.
    apply andb_true_iff in Hf as [Hr%Z.eqb_eq Hc%Z.eqb_eq].
    by apply square_eq_iff. }
  case_bool_decide as Hn.
  { right. apply length_zero_iff_nil in Hn. destruct (Hover Hn) as [_ Hl].
    unfold App.isLegalDestination. rewrite Hl. do 4 (split; [done|]).
    by intros m []. }
  destruct (App.selected s) as [sel|] eqn:Hsel.
  - destruct (App.isLegalDestination s i j) eqn:Hdest.
    + left. destruct (existsb_find _ _ Hdest) as [m Hfind].
      unfold App.getMoveForDestination. rewrite Hfind.
      apply find_some in Hfind as [Hm Hto].
      apply andb_true_iff in Hto as [Hr%Z.eqb_eq Hc%Z.eqb_eq].
      destruct (Hlegal m Hm) as [Hall Hfrom].
      exists m. split; [done|]. split; [done|]. split; [done|].
      split; [by apply square_eq_iff|]. reflexivity.
    + right. split; [done|].
      destruct (App.isSelectablePiece s i j).
      * do 3 (split; [done|]). exact Hselect.
      * do 3 (split; [done|]). by intros m [].
  - right. split.
    + unfold App.isLegalDestination.
      destruct (App.legalMovesFromSelected s) as [|m l] eqn:Hl; [done|].
      destruct (Hlegal m) as [_ [=]]. by left.
    + destruct (App.isSelectablePiece s i j).
      * do 3 (split; [done|]). exact Hselect.
      * do 3 (split; [done|]). intros m Hm. rewrite Hsel. by apply Hlegal.
Qed.

Lemma step_invariant ev s :
  stateInvariant s → stateInvariant (App.step ev s).
Proof.
  intros Hinv. unfold App.step. destruct ev as [i j|]; cbn [App.handle].
  - destruct Hinv as (Hplayed & Hparity & Hrest).
    destruct (handleSquareClick_cases s i j (conj Hplayed (conj Hparity Hrest)))
      as [(m & _ & Hm & _ & _ & ->)|(_ & Hp & Ht & Hh & Hl)].
    + apply statusEffect_invariant; cbn.
      * by constructor.
      * by apply parity_step.
      * done.
    + apply statusEffect_invariant.
      * by rewrite Hp, Ht.
      * by rewrite Ht, Hh.
      * intros m Hm. unfold App.allLegalMoves. rewrite Hp, Ht. by apply Hl.
  - apply statusEffect_invariant; cbn; [constructor|done|done].
Qed.

(** X17: after the mount effect and any sequence of clicks and restarts, the
    position on display was reached from the initial position by legal
    moves of alternating sides, white is to move exactly when the history
    has an even number of entries, the status is the one the effect
    computes for the position, the moves kept for the selected square are
    legal moves from that square, and nothing is selected when the side to
    move has no legal move. *)
Theorem run_invariant (events : list App.Event) :
  Forall App.onBoard events → stateInvariant (App.run events).
Proof.
  intros _. unfold App.run.
  assert (H0 : stateInvariant (App.statusEffect App.initialState)).
  { apply statusEffect_invariant; cbn; [constructor|done|done]. }
  revert H0. generalize (App.statusEffect App.initialState).
  induction events as [|ev events IH]; intros s Hs; simpl; [done|].
  apply IH. by apply step_invariant.
Qed.

Lemma run_invariant_e2_e4 :
  stateInvariant (App.run [App.Click 6 4; App.Click 4 4]).
Proof.
  apply (run_invariant [App.Click 6 4; App.Click 4 4]).
  repeat constructor.
Defined.

(** Running the effect on a state that satisfies the invariant changes
    nothing: it makes no difference whether the effect runs after a render
    that kept the position and the side to move. *)
Lemma statusEffect_fixed s : stateInvariant s → App.statusEffect s = s.
Proof.
  intros (_ & _ & Hstatus & _ & Hover).
  destruct (statusEffect_fields s) as (Hp & Ht & Hh & _ & Hnone & Hsome).
  assert (Hsel : App.selected (App.statusEffect s) = App.selected s
                 ∧ App.legalMovesFromSelected (App.statusEffect s)
                   = App.legalMovesFromSelected s).
  { destruct (App.allLegalMoves s) as [|m0 l] eqn:E.
    - destruct Hnone as [-> ->]; [done|]. by destruct Hover as [-> ->].
    - by apply Hsome. }
  destruct Hsel as [Hsel Hl].
  destruct (App.statusEffect s) as [p' t' s' l' h' st'], s as [p t sl l h st].
  cbn [App.position App.turn App.selected App.legalMovesFromSelected
       App.moveHistory App.status] in *.
  by subst.
Qed.

(** X18: a click either plays a legal move of the side to move, from the selected
    square to the clicked square (the position becomes the one of
    [applyMove], the side to move changes, the notation of the move is
    appended to the history and the selection is dropped), or leaves the
    position, the side to move and the history as they are; the first
    happens exactly when a move kept for the selected square ends on the
    clicked square. *)
Theorem click_outcome (s : App.State) (i j : Z) :
  stateInvariant s → inside i j = true →
  (App.isLegalDestination s i j = true
   ∧ ∃ m, In m (generateLegalMoves (App.position s) (App.turn s))
       ∧ App.selected s = Some (from m) ∧ to m = mkSquare i j
       ∧ App.position (App.step (App.Click i j) s)
         = applyMove (App.position s) m
       ∧ App.turn (App.step (App.Click i j) s) = opposite (App.turn s)
       ∧ App.moveHistory (App.step (App.Click i j) s)
         = App.moveHistory s ++ [moveToSANLike (App.position s) m]
       ∧ App.selected (App.step (App.Click i j) s) = None)
  ∨ (App.isLegalDestination s i j = false
     ∧ App.position (App.step (App.Click i j) s) = App.position s
     ∧ App.turn (App.step (App.Click i j) s) = App.turn s
     ∧ App.moveHistory (App.step (App.Click i j) s) = App.moveHistory s).
Proof.
  intros Hinv _. unfold App.step. cbn [App.handle].
  destruct (statusEffect_fields (App.handleSquareClick i j s))
    as (Hp & Ht & Hh & _ & Hnone & Hsome).
  rewrite Hp, Ht, Hh.
  destruct (handleSquareClick_cases s i j Hinv)
    as [(m & Hdest & Hm & Hsel & Hto & Heq)|(Hdest & Hp' & Ht' & Hh' & _)].
  - left. split; [done|]. exists m. rewrite Heq in *.
    cbn [App.position App.turn App.moveHistory App.selected] in *.
    do 6 (split; [done|]).
    destruct (App.allLegalMoves
                (App.mkState (applyMove (App.position s) m)
                   (opposite (App.turn s)) None []
                   (App.moveHistory s ++ [moveToSANLike (App.position s) m])
                   (App.status s))) eqn:E.
    + by destruct Hnone.
    + by destruct Hsome.
  - right. by rewrite Hp', Ht', Hh'.
Qed.

Lemma click_outcome_e4 :
  let s := App.run [App.Click 6 4] in
  (App.isLegalDestination s 4 4 = true
   ∧ ∃ m, In m (generateLegalMoves (App.position s) (App.turn s))
       ∧ App.selected s = Some (from m) ∧ to m = mkSquare 4 4
       ∧ App.position (App.step (App.Click 4 4) s)
         = applyMove (App.position s) m
       ∧ App.turn (App.step (App.Click 4 4) s) = opposite (App.turn s)
       ∧ App.moveHistory (App.step (App.Click 4 4) s)
         = App.moveHistory s ++ [moveToSANLike (App.position s) m]
       ∧ App.selected (App.step (App.Click 4 4) s) = None)
  ∨ (App.isLegalDestination s 4 4 = false
     ∧ App.position (App.step (App.Click 4 4) s) = App.position s
     ∧ App.turn (App.step (App.Click 4 4) s) = App.turn s
     ∧ App.moveHistory (App.step (App.Click 4 4) s) = App.moveHistory s).
Proof.
  apply (click_outcome (App.run [App.Click 6 4]) 4 4).
  - apply step_invariant.
    apply statusEffect_invariant; cbn; [constructor|done|done].
  - reflexivity.
Defined.

(** X19: once the side to move has no legal move (checkmate or stalemate), a
    click changes nothing at all. *)
Theorem game_over_click_ignored (s : App.State) (i j : Z) :
  stateInvariant s → inside i j = true →
  generateLegalMoves (App.position s) (App.turn s) = [] →
  App.step (App.Click i j) s = s.
Proof.
  intros Hinv _ Hnone. unfold App.step. cbn [App.handle].
  assert (App.handleSquareClick i j s = s) as ->; [|by apply statusEffect_fixed].
  destruct Hinv as (_ & _ & Hstatus & _).
  unfold App.handleSquareClick.
  destruct (statusEffect_fields s) as (_ & _ & _ & Hst & _).
  rewrite Hstatus, Hst. cbn [App.checkmated App.stalemated].
  rewrite noMoves_flags. unfold App.allLegalMoves. rewrite Hnone.
  by rewrite bool_decide_eq_true_2.
Qed.

Lemma game_over_click_ignored_fools_mate :
  let s := App.run [App.Click 6 5; App.Click 5 5; App.Click 1 4; App.Click 3 4;
                    App.Click 6 6; App.Click 4 6; App.Click 0 3; App.Click 4 7] in
  App.step (App.Click 7 4) s = s.
Proof.
  apply (game_over_click_ignored
           (App.run [App.Click 6 5; App.Click 5 5; App.Click 1 4; App.Click 3 4;
                     App.Click 6 6; App.Click 4 6; App.Click 0 3; App.Click 4 7])
           7 4).
  - apply step_invariant, step_invariant, step_invariant, step_invariant,
      step_invariant, step_invariant, step_invariant, step_invariant.
    apply statusEffect_invariant; cbn; [constructor|done|done].
  - reflexivity.
  - vm_compute. reflexivity.
Defined.

(** * Further properties of the oracle and of the notation *)

(** X20: a square outside the board is reported as attacked only by pawns: the
    pawn test compares coordinates without looking at the board, every
    other piece only generates destinations on the board. *)
Theorem off_board_attacked_only_by_pawns (pos : Position) (square : Square)
    (byColor : Color) :
  wf_position pos → insideSquare square = false →
  isSquareAttacked pos square byColor = true ↔
  ∃ a, pieceOn pos a = Some (mkPiece byColor Pawn)
       ∧ r square = r a + pawnDir byColor
       ∧ (c square = c a - 1 ∨ c square = c a + 1).
Proof.
  intros Hwf Hout. rewrite (isSquareAttacked_iff _ _ _ Hwf). split.
  - intros (a & p & Hp & Hkp & Hgeo). unfold attackGeometry in Hgeo.
    assert (Hno : ¬ landable pos (color p) (r square) (c square)).
    { intros [Hin _]. unfold insideSquare in Hout. congruence. }
    destruct p as [k t]. cbn [color type] in *. subst k.
    destruct t; try (by destruct Hgeo as (d & ? & ? & ? & ?));
      try (by destruct Hgeo as (d & n & ? & ? & ? & ? & ? & ?)).
    exists a. by destruct Hgeo.
  - intros (a & Hp & Hr & Hc). exists a, (mkPiece byColor Pawn).
    split; [done|]. split; [done|]. unfold attackGeometry. by cbn [type color].
Qed.

Lemma off_board_attacked_only_by_pawns_a2 :
  isSquareAttacked createInitialPosition (mkSquare 5 (-1)) W = true ↔
  ∃ a, pieceOn createInitialPosition a = Some (mkPiece W Pawn)
       ∧ r (mkSquare 5 (-1)) = r a + pawnDir W
       ∧ (c (mkSquare 5 (-1)) = c a - 1 ∨ c (mkSquare 5 (-1)) = c a + 1).
Proof.
  apply (off_board_attacked_only_by_pawns createInitialPosition
           (mkSquare 5 (-1)) W).
  - exact wf_createInitialPosition.
  - reflexivity.
Defined.

(** The algebraic name of a square of the board: a file letter and a rank
    digit that determine the square. *)
Lemma squareToAlgebraic_chars sq :
  insideSquare sq = true →
  ∃ f d, squareToAlgebraic sq = String f (String d EmptyString)
    ∧ (97 ≤ nat_of_ascii f ≤ 104)%nat
    ∧ c sq = Z.of_nat (nat_of_ascii f) - 97
    ∧ r sq = 56 - Z.of_nat (nat_of_ascii d).
Proof.
  destruct sq as [i j]. unfold insideSquare. cbn [r c].
  intros [Hi Hj]%inside_spec.
  each_index Hi; each_index Hj;
    eexists _, _; (split; [reflexivity|]);
    (split; [vm_compute; lia|]); split; vm_compute; reflexivity.
Qed.

Lemma pieceLetter_chars t :
  pieceLetter t = EmptyString
  ∨ ∃ l, pieceLetter t = String l EmptyString ∧ (nat_of_ascii l < 97)%nat.
Proof.
  destruct t; [right|right|right|right|right|left]; try reflexivity;
    eexists; (split; [reflexivity|]); vm_compute; lia.
Qed.

Lemma append_String a s t : String a s +:+ t = String a (s +:+ t).
Proof. reflexivity. Qed.

Lemma append_empty t : EmptyString +:+ t = t.
Proof. reflexivity. Qed.

(** X21: two legal moves of one position that [makeMove] renders with the same
    notation string are the same move: an entry of the move history
    identifies the move that was played. *)
Theorem notation_identifies_move (pos : Position) (turn : Color)
    (m1 m2 : Move) :
  wf_position pos →
  In m1 (generateLegalMoves pos turn) →
  In m2 (generateLegalMoves pos turn) →
  (makeMove pos m1).2 = (makeMove pos m2).2 →
  m1 = m2.
Proof.
  intros Hwf Hm1 Hm2 Hsan. cbn [makeMove snd] in Hsan.
  assert (Hfacts : ∀ m, In m (generateLegalMoves pos turn) →
    ∃ p, boardAt pos (r (from m)) (c (from m)) = Some p
      ∧ insideSquare (from m) = true ∧ insideSquare (to m) = true
      ∧ captured m = pieceOn pos (to m)
      ∧ promotion m
        = if bool_decide (type p = Pawn) then promotionAt (r (to m)) else None).
  { intros m (sq & p & Hsq & Hp & _ & Hm & _)%in_generateLegalMoves.
    destruct (in_pseudoLegal_facts pos sq p m Hp Hm) as (<- & [Hin _] & Hc & Hq).
    exists p. by repeat split. }
  destruct (Hfacts m1 Hm1) as (p1 & Hp1 & Hf1 & Ht1 & Hc1 & Hq1).
  destruct (Hfacts m2 Hm2) as (p2 & Hp2 & Hf2 & Ht2 & Hc2 & Hq2).
  unfold moveToSANLike in Hsan. rewrite Hp1, Hp2 in Hsan.
  destruct (squareToAlgebraic_chars _ Hf1) as (ff1 & fd1 & Ef1 & Hr1 & Hfc1 & Hfr1).
  destruct (squareToAlgebraic_chars _ Hf2) as (ff2 & fd2 & Ef2 & Hr2 & Hfc2 & Hfr2).
  destruct (squareToAlgebraic_chars _ Ht1) as (tf1 & td1 & Et1 & _ & Htc1 & Htr1).
  destruct (squareToAlgebraic_chars _ Ht2) as (tf2 & td2 & Et2 & _ & Htc2 & Htr2).
  rewrite Ef1, Ef2, Et1, Et2 in Hsan.
  assert (Hsquares : from m1 = from m2 ∧ to m1 = to m2).
  { assert (Hmark : ∀ (o : option Piece),
      ∃ x, (match o with Some _ => "x" | None => "-" end)%string
           = String x EmptyString) by (intros [?|]; eauto).
    destruct (Hmark (captured m1)) as (x1 & Ex1).
    destruct (Hmark (captured m2)) as (x2 & Ex2).
    rewrite Ex1, Ex2 in Hsan.
    destruct (pieceLetter_chars (type p1)) as [E1|(l1 & E1 & Hl1)],
             (pieceLetter_chars (type p2)) as [E2|(l2 & E2 & Hl2)];
      rewrite E1, E2 in Hsan;
      repeat rewrite ?append_String, ?append_empty in Hsan;
      simplify_eq; try lia;
      split; apply square_eq_iff; split; congruence. }
  destruct Hsquares as [Hfrom Hto].
  assert (p1 = p2) as -> by (rewrite Hfrom in Hp1; congruence).
  rewrite Hto, <- Hc2 in Hc1. rewrite Hto, <- Hq2 in Hq1.
  destruct m1 as [f1 t1 q1 c1], m2 as [f2 t2 q2 c2].
  cbn [from to promotion captured] in *. congruence.
Qed.

Lemma notation_identifies_move_e4 :
  quietMove (mkSquare 6 4) (mkSquare 4 4)
  = mkMove (mkSquare 6 4) (mkSquare 4 4) None None.
Proof.
  apply (notation_identifies_move createInitialPosition W).
  - exact wf_createInitialPosition.
  - vm_compute. tauto.
  - vm_compute. tauto.
  - reflexivity.
Defined.
